(** * BalloonGame: the on-chain session state machine of popRisk

    A shallow embedding of [ballongame.sol] (Solidity ^0.8.20) and the
    properties of its round / pump / bank progression.

    Conventions of the embedding
    - [uint256] values are [N]; Solidity 0.8 arithmetic is checked, so
      every [+], [-], [*], [**] of the source is a [checked_*] operation
      that reverts with [Panic 0x11] instead of wrapping.
    - a [mapping] is a [gmap] read with the all-zero default.
    - a call either returns the new storage or reverts; a reverted call
      leaves the storage as it was ([step]).
    - [startGame] carries the [nonReentrant] modifier of the imported
      ReentrancyGuard.  Its body makes no external call, so the flag the
      modifier sets is cleared again before any other call can read it;
      the flag is not part of the modelled storage.
    - [pumpBalloon] and [collectPoints] are not payable: sent with ether
      they revert before their body runs, which is a transaction that
      changes nothing.  [msg.value] is an argument of [startGame] only.
    - [withdraw] and [getContractBalance] only touch the ETH balance of
      the contract, which no game rule reads; the balance is kept apart
      from the game storage, in [Ledger].
    - array indices and lengths are [nat]; a memory array access outside
      its bounds reverts with [Panic 0x32]. *)

From stdpp Require Import gmap strings list fin_maps.
From Stdlib Require Import NArith Lia Sorting.Sorted.

Open Scope N_scope.

(** ** Machine integers and reverts *)

Abbreviation uint256 := N (only parsing).
Abbreviation address := N (only parsing).

Definition MAX_UINT256 : N := Eval vm_compute in 2 ^ 256 - 1.

Inductive Error : Type :=
| RequireFailed (reason : string)
| Panic (code : N).

Inductive result (A : Type) : Type :=
| Ok (a : A)
| Revert (e : Error).
Arguments Ok {A} a.
Arguments Revert {A} e.

Definition bind {A B} (r : result A) (k : A -> result B) : result B :=
  match r with
  | Ok a => k a
  | Revert e => Revert e
  end.

Notation "x <- r ;; k" := (bind r (fun x => k))
  (at level 100, r at next level, right associativity).
Notation "r ;;; k" := (bind r (fun _ => k))
  (at level 100, right associativity).

Definition require (cond : bool) (reason : string) : result unit :=
  if cond then Ok tt else Revert (RequireFailed reason).

(** Arithmetic overflow / underflow is [Panic(0x11)], an array index out
    of bounds is [Panic(0x32)]. *)
Definition ARITHMETIC_PANIC : Error := Panic 17.
Definition INDEX_PANIC : Error := Panic 50.

Definition checked_add (a b : uint256) : result uint256 :=
  if a + b <=? MAX_UINT256 then Ok (a + b) else Revert ARITHMETIC_PANIC.

Definition checked_sub (a b : uint256) : result uint256 :=
  if b <=? a then Ok (a - b) else Revert ARITHMETIC_PANIC.

Definition checked_mul (a b : uint256) : result uint256 :=
  if a * b <=? MAX_UINT256 then Ok (a * b) else Revert ARITHMETIC_PANIC.

Definition checked_pow (a b : uint256) : result uint256 :=
  if a ^ b <=? MAX_UINT256 then Ok (a ^ b) else Revert ARITHMETIC_PANIC.

(** The revert reasons of the contract, under the names the error
    taxonomy gives them. *)
Definition AlreadyActive : Error := RequireFailed "Game already active".
Definition WrongFee : Error := RequireFailed "Incorrect entry fee".
Definition NoActiveGame : Error := RequireFailed "No active game".
Definition RoundExhausted : Error := RequireFailed "Game completed".
Definition PumpCapReached : Error :=
  RequireFailed "Max 2 pumps per round! Collect points to continue.".
Definition NothingToBank : Error := RequireFailed "Must pump at least once".

(** ** Constants *)

Definition ENTRY_FEE : uint256 := 1000000000000000.  (* 0.001 ether, in wei *)
Definition MAX_ROUNDS : uint256 := 5.
Definition MIN_PUMPS_BEFORE_POP : uint256 := 3.

(** ** Storage *)

Record GameState : Type := mkGameState {
  currentRound : uint256;
  pumpCount : uint256;
  pendingPoints : uint256;
  totalScore : uint256;
  isActive : bool
}.

Definition zeroGame : GameState := mkGameState 0 0 0 0 false.

Inductive Event : Type :=
| GameStarted (player : address) (timestamp : uint256)
| BalloonPumped (player : address) (round pumps points : uint256)
| PointsCollected (player : address) (round total : uint256)
| BalloonPopped (player : address) (round lostPoints : uint256)
| GameCompleted (player : address) (finalScore : uint256).

Record State : Type := mkState {
  games : gmap N GameState;
  highScores : gmap N N;
  players : list N;
  events : list Event
}.

Definition initState : State := mkState ∅ ∅ [] [].

(** [games[a]] and [highScores[a]]: an absent key reads as zero. *)
Definition game_of (s : State) (a : address) : GameState :=
  default zeroGame (games s !! a).

Definition highScore_of (s : State) (a : address) : uint256 :=
  default 0 (highScores s !! a).

Definition set_game (a : address) (g : GameState) (s : State) : State :=
  mkState (<[a := g]> (games s)) (highScores s) (players s) (events s).

Definition set_highScore (a : address) (v : uint256) (s : State) : State :=
  mkState (games s) (<[a := v]> (highScores s)) (players s) (events s).

Definition push_player (a : address) (s : State) : State :=
  mkState (games s) (highScores s) (players s ++ [a]) (events s).

Definition emit (e : Event) (s : State) : State :=
  mkState (games s) (highScores s) (players s) (events s ++ [e]).

(** Field writes through a [GameState storage] pointer. *)
Definition with_currentRound (v : uint256) (g : GameState) : GameState :=
  mkGameState v (pumpCount g) (pendingPoints g) (totalScore g) (isActive g).
Definition with_pumpCount (v : uint256) (g : GameState) : GameState :=
  mkGameState (currentRound g) v (pendingPoints g) (totalScore g) (isActive g).
Definition with_pendingPoints (v : uint256) (g : GameState) : GameState :=
  mkGameState (currentRound g) (pumpCount g) v (totalScore g) (isActive g).
Definition with_totalScore (v : uint256) (g : GameState) : GameState :=
  mkGameState (currentRound g) (pumpCount g) (pendingPoints g) v (isActive g).
Definition with_isActive (v : bool) (g : GameState) : GameState :=
  mkGameState (currentRound g) (pumpCount g) (pendingPoints g) (totalScore g) v.

(** ** The contract functions *)

(** [startGame() external payable nonReentrant] *)
Definition startGame (sender : address) (value timestamp : uint256)
    (s : State) : result State :=
  require (negb (isActive (game_of s sender))) "Game already active" ;;;
  require (value =? ENTRY_FEE) "Incorrect entry fee" ;;;
  (* Track player if first time *)
  let s := if currentRound (game_of s sender) =? 0
           then push_player sender s else s in
  (* Initialize game state *)
  let s := set_game sender (mkGameState 1 0 0 0 true) s in
  Ok (emit (GameStarted sender timestamp) s).

(** [pumpBalloon() external] *)
Definition pumpBalloon (sender : address) (s : State) : result State :=
  let game := game_of s sender in
  require (isActive game) "No active game" ;;;
  require (currentRound game <=? MAX_ROUNDS) "Game completed" ;;;
  require (pumpCount game <? 2)
    "Max 2 pumps per round! Collect points to continue." ;;;
  (* game.pumpCount++ *)
  pumps <- checked_add (pumpCount game) 1 ;;
  let game := with_pumpCount pumps game in
  (* earnedPoints = 10 * (2 ** (game.pumpCount - 1)) *)
  e <- checked_sub (pumpCount game) 1 ;;
  p <- checked_pow 2 e ;;
  earnedPoints <- checked_mul 10 p ;;
  (* game.pendingPoints += earnedPoints *)
  pending <- checked_add (pendingPoints game) earnedPoints ;;
  let game := with_pendingPoints pending game in
  let s := set_game sender game s in
  Ok (emit (BalloonPumped sender (currentRound game) (pumpCount game)
              earnedPoints) s).

(** [_checkBalloonPop(uint256) private pure]: never called. *)
Definition _checkBalloonPop (pumps : uint256) : bool :=
  if 3 <=? pumps then true else false.

(** [_endGame(address) private] *)
Definition _endGame (player : address) (s : State) : State :=
  let game := game_of s player in
  (* Update high score if new record *)
  let s := if highScore_of s player <? totalScore game
           then set_highScore player (totalScore game) s else s in
  let s := emit (GameCompleted player (totalScore game)) s in
  (* Mark game as inactive *)
  set_game player (with_isActive false (game_of s player)) s.

(** [collectPoints() external] *)
Definition collectPoints (sender : address) (s : State) : result State :=
  let game := game_of s sender in
  require (isActive game) "No active game" ;;;
  require (0 <? pumpCount game) "Must pump at least once" ;;;
  (* Bank the pending points *)
  total <- checked_add (totalScore game) (pendingPoints game) ;;
  let game := with_totalScore total game in
  let s := set_game sender game s in
  let s := emit (PointsCollected sender (currentRound game)
                   (totalScore game)) s in
  (* Advance to next round or end game *)
  if currentRound game <? MAX_ROUNDS then
    round <- checked_add (currentRound game) 1 ;;
    let game := with_currentRound round game in
    let game := with_pumpCount 0 game in
    let game := with_pendingPoints 0 game in
    Ok (set_game sender game s)
  else
    Ok (_endGame sender s).

(** [getGameState(address) external view] *)
Definition getGameState (s : State) (player : address)
    : uint256 * uint256 * uint256 * uint256 * bool :=
  let game := game_of s player in
  (currentRound game, pumpCount game, pendingPoints game,
   totalScore game, isActive game).

(** [getHighScore(address) external view] *)
Definition getHighScore (s : State) (player : address) : uint256 :=
  highScore_of s player.

(** *** The leaderboard view *)

(** Memory arrays: a read or a write outside the bounds panics. *)
Definition aget {A} (l : list A) (i : nat) : result A :=
  match l !! i with
  | Some x => Ok x
  | None => Revert INDEX_PANIC
  end.

Definition aset {A} (l : list A) (i : nat) (x : A) : result (list A) :=
  if decide (i < length l)%nat then Ok (<[i := x]> l) else Revert INDEX_PANIC.

(** [for (uint256 k = lo; k < hi; k++) body]: [count] iterations from
    [k] on. *)
Fixpoint for_loop {St} (count k : nat) (body : nat -> St -> result St)
    (st : St) : result St :=
  match count with
  | O => Ok st
  | S count' => st' <- body k st ;; for_loop count' (S k) body st'
  end.

Definition for_range {St} (lo hi : nat) (body : nat -> St -> result St)
    (st : St) : result St :=
  for_loop (hi - lo) lo body st.

Abbreviation board := (list N * list N)%type (only parsing).

(** Copy all players and their high scores. *)
Definition copy_body (s : State) (i : nat) (st : board) : result board :=
  let '(tempPlayers, tempScores) := st in
  (* tempPlayers[i] = players[i] *)
  p <- aget (players s) i ;;
  tempPlayers <- aset tempPlayers i p ;;
  (* tempScores[i] = highScores[players[i]] *)
  p <- aget (players s) i ;;
  tempScores <- aset tempScores i (highScore_of s p) ;;
  Ok (tempPlayers, tempScores).

(** The body of the inner sorting loop. *)
Definition sort_body (i j : nat) (st : board) : result board :=
  let '(tempPlayers, tempScores) := st in
  sj <- aget tempScores j ;;
  si <- aget tempScores i ;;
  if si <? sj then
    (* Swap scores *)
    tempScore <- aget tempScores i ;;
    v <- aget tempScores j ;;
    tempScores <- aset tempScores i v ;;
    tempScores <- aset tempScores j tempScore ;;
    (* Swap addresses *)
    tempPlayer <- aget tempPlayers i ;;
    v <- aget tempPlayers j ;;
    tempPlayers <- aset tempPlayers i v ;;
    tempPlayers <- aset tempPlayers j tempPlayer ;;
    Ok (tempPlayers, tempScores)
  else Ok (tempPlayers, tempScores).

Definition sort_loops (playerCount : nat) (st : board) : result board :=
  for_range 0 playerCount
    (fun i => for_range (i + 1) playerCount (sort_body i)) st.

(** Return top 10. *)
Definition top_body (temp : board) (i : nat) (st : board) : result board :=
  let '(topPlayers, topScores) := st in
  p <- aget (fst temp) i ;;
  topPlayers <- aset topPlayers i p ;;
  v <- aget (snd temp) i ;;
  topScores <- aset topScores i v ;;
  Ok (topPlayers, topScores).

(** [getLeaderboard() external view] *)
Definition getLeaderboard (s : State) : result board :=
  let playerCount := length (players s) in
  let leaderboardSize :=
    if (playerCount <? 10)%nat then playerCount else 10%nat in
  (* Create temporary arrays for sorting *)
  let tempPlayers := replicate playerCount 0 in
  let tempScores := replicate playerCount 0 in
  temp <- for_range 0 playerCount (copy_body s) (tempPlayers, tempScores) ;;
  temp <- sort_loops playerCount temp ;;
  let topPlayers := replicate leaderboardSize 0 in
  let topScores := replicate leaderboardSize 0 in
  for_range 0 leaderboardSize (top_body temp) (topPlayers, topScores).

(** ** Transactions *)

Inductive Call : Type :=
| CallStartGame (value timestamp : uint256)
| CallPumpBalloon
| CallCollectPoints.

Record Tx : Type := mkTx { sender : address; call : Call }.

Definition exec (tx : Tx) (s : State) : result State :=
  match call tx with
  | CallStartGame value timestamp => startGame (sender tx) value timestamp s
  | CallPumpBalloon => pumpBalloon (sender tx) s
  | CallCollectPoints => collectPoints (sender tx) s
  end.

(** A reverted transaction leaves the storage untouched. *)
Definition step (s : State) (tx : Tx) : State :=
  match exec tx s with
  | Ok s' => s'
  | Revert _ => s
  end.

Definition run (txs : list Tx) (s : State) : State := foldl step s txs.

Definition reachable (s : State) : Prop := exists txs, s = run txs initState.

Definition succeeds {A} (r : result A) : bool :=
  match r with Ok _ => true | Revert _ => false end.

(** What a transaction did on behalf of player [p]: the call, when [p]
    sent it and it did not revert. *)
Definition performed (p : address) (tx : Tx) (s : State) : option Call :=
  if decide (sender tx = p) then
    if succeeds (exec tx s) then Some (call tx) else None
  else None.

(** The effect of one transaction on one player's game and high score. *)
Inductive game_step (g : GameState) (h : uint256)
    : option Call -> GameState -> uint256 -> Prop :=
| gs_idle : game_step g h None g h
| gs_start value timestamp :
    isActive g = false ->
    value = ENTRY_FEE ->
    game_step g h (Some (CallStartGame value timestamp))
      (mkGameState 1 0 0 0 true) h
| gs_pump :
    isActive g = true ->
    currentRound g <= MAX_ROUNDS ->
    pumpCount g < 2 ->
    pendingPoints g + 10 * 2 ^ pumpCount g <= MAX_UINT256 ->
    game_step g h (Some CallPumpBalloon)
      (mkGameState (currentRound g) (pumpCount g + 1)
         (pendingPoints g + 10 * 2 ^ pumpCount g) (totalScore g) true) h
| gs_bank_next :
    isActive g = true ->
    0 < pumpCount g ->
    currentRound g < MAX_ROUNDS ->
    totalScore g + pendingPoints g <= MAX_UINT256 ->
    game_step g h (Some CallCollectPoints)
      (mkGameState (currentRound g + 1) 0 0
         (totalScore g + pendingPoints g) true) h
| gs_bank_last :
    isActive g = true ->
    0 < pumpCount g ->
    MAX_ROUNDS <= currentRound g ->
    totalScore g + pendingPoints g <= MAX_UINT256 ->
    game_step g h (Some CallCollectPoints)
      (mkGameState (currentRound g) (pumpCount g) (pendingPoints g)
         (totalScore g + pendingPoints g) false)
      (if h <? totalScore g + pendingPoints g
       then totalScore g + pendingPoints g else h).

(** ** The four ways a call returns

    The storage after a [startGame], a [pumpBalloon], a [collectPoints]
    that opens the next round and a [collectPoints] that ends the game. *)

Definition started (p : address) (timestamp : uint256) (s : State) : State :=
  emit (GameStarted p timestamp)
    (set_game p (mkGameState 1 0 0 0 true)
       (if currentRound (game_of s p) =? 0 then push_player p s else s)).

Definition pumped (p : address) (s : State) : State :=
  let g := game_of s p in
  emit (BalloonPumped p (currentRound g) (pumpCount g + 1)
          (10 * 2 ^ pumpCount g))
    (set_game p
       (mkGameState (currentRound g) (pumpCount g + 1)
          (pendingPoints g + 10 * 2 ^ pumpCount g) (totalScore g) true) s).

Definition banked_next (p : address) (s : State) : State :=
  let g := game_of s p in
  let total := totalScore g + pendingPoints g in
  set_game p (mkGameState (currentRound g + 1) 0 0 total true)
    (emit (PointsCollected p (currentRound g) total)
       (set_game p (with_totalScore total g) s)).

Definition banked_last (p : address) (s : State) : State :=
  let g := game_of s p in
  let total := totalScore g + pendingPoints g in
  _endGame p
    (emit (PointsCollected p (currentRound g) total)
       (set_game p (with_totalScore total g) s)).

(** ** Vocabulary of the statements *)

(** Positions below [i] hold their final value: each is at least as
    large as everything to its right. *)
Definition prefix_done (i : nat) (ts : list N) : Prop :=
  forall a b x y, (a < i)%nat -> (a < b)%nat ->
    ts !! a = Some x -> ts !! b = Some y -> y <= x.

(** Position [i] dominates the positions strictly between [i] and [j]. *)
Definition head_done (i j : nat) (ts : list N) : Prop :=
  forall b x y, (i < b < j)%nat ->
    ts !! i = Some x -> ts !! b = Some y -> y <= x.

(** The order of the returned scores. *)
Definition descending (x y : N) : Prop := y <= x.

(** The entry of each registered player, in registration order. *)
Definition entries (s : State) : list (N * N) :=
  (fun p => (p, highScore_of s p)) <$> players s.

(** What holds of every stored game and high score. *)
Record game_ok (g : GameState) (h : N) : Prop := mk_game_ok {
  ok_round : currentRound g <= MAX_ROUNDS;
  ok_active_round : isActive g = true -> 1 <= currentRound g;
  ok_pumps : pumpCount g <= 2;
  ok_pending : pendingPoints g = 10 * (2 ^ pumpCount g - 1);
  ok_total :
    totalScore g + (if isActive g then 30 else 0) <= 30 * currentRound g;
  ok_high : h <= 150
}.

Definition is_start (c : Call) : bool :=
  match c with CallStartGame _ _ => true | _ => false end.

(** No transaction of the run is a [startGame] sent by [p]: the run stays
    within the game [p] is playing. *)
Definition no_restart (p : address) (txs : list Tx) : bool :=
  forallb (fun tx => negb ((sender tx =? p) && is_start (call tx))) txs.

Definition is_bank (c : option Call) : bool :=
  match c with Some CallCollectPoints => true | _ => false end.

(** The [pendingPoints] value committed by each bank of [p] that went
    through, in order. *)
Fixpoint banked_points (p : address) (txs : list Tx) (s : State) : list N :=
  match txs with
  | [] => []
  | tx :: rest =>
      (if is_bank (performed p tx s) then [pendingPoints (game_of s p)]
       else []) ++ banked_points p rest (step s tx)
  end.

Definition sumN (l : list N) : N := foldr N.add 0 l.

Definition is_pump (c : option Call) : bool :=
  match c with Some CallPumpBalloon => true | _ => false end.

(** Within a round of [p]: whatever [p] sends in the run is a pump. *)
Definition only_pumps (p : address) (txs : list Tx) : bool :=
  forallb (fun tx => negb (sender tx =? p) ||
                     match call tx with CallPumpBalloon => true | _ => false end)
    txs.

(** How many pumps of [p] went through in the run. *)
Fixpoint pumps_done (p : address) (txs : list Tx) (s : State) : N :=
  match txs with
  | [] => 0
  | tx :: rest =>
      (if is_pump (performed p tx s) then 1 else 0)
      + pumps_done p rest (step s tx)
  end.

(** ** Sample players and runs *)

Definition alice : address := 1.
Definition bob : address := 2.
Definition carol : address := 3.

Definition txStart (p : address) : Tx := mkTx p (CallStartGame ENTRY_FEE 0).
Definition txPump (p : address) : Tx := mkTx p CallPumpBalloon.
Definition txBank (p : address) : Tx := mkTx p CallCollectPoints.

(** [n] rounds of one pump and a bank. *)
Definition rounds (p : address) (n : nat) : list Tx :=
  concat (replicate n [txPump p; txBank p]).

(** A whole game: one pump per round, except [extra] more in round 1. *)
Definition game (p : address) (extra : nat) : list Tx :=
  txStart p :: replicate extra (txPump p) ++ rounds p 5.

(** Alice in round 5, one pump made, about to bank. *)
Definition round5 : State :=
  run (txStart alice :: rounds alice 4 ++ [txPump alice]) initState.

(** Alice, then Bob, finish a game with 50 points each; Carol, the last
    to register, finishes one with 70. *)
Definition three_games : State :=
  run (game alice 0 ++ game bob 0 ++ game carol 1) initState.

(** ** Three sentences of the specification, word for word

    They are refuted below; the statements that hold in their place
    follow each refutation. *)


(** [p] was pushed on [players] before [q]. *)
Definition registered_before (s : State) (p q : address) : Prop :=
  exists a b, (a < b)%nat /\ players s !! a = Some p /\ players s !! b = Some q.

(** Of two returned players with the same score, the one listed first
    registered first. *)
Definition ties_in_registration_order (s : State) : Prop :=
  forall tp ts i j p q x,
    getLeaderboard s = Ok (tp, ts) -> (i < j)%nat ->
    tp !! i = Some p -> tp !! j = Some q ->
    ts !! i = Some x -> ts !! j = Some x ->
    registered_before s p q.

(** With [pumpCount = 0] the bank always reverts with NothingToBank. *)
Definition zero_pumps_is_NothingToBank : Prop :=
  forall s p, reachable s ->
    pumpCount (game_of s p) = 0 -> collectPoints p s = Revert NothingToBank.

(** ** The contract seen from one player *)

(** What a call does to the caller's own game and high score; a call
    that reverts leaves both as they are. *)
Definition player_step (c : Call) (g : GameState) (h : uint256)
    : GameState * uint256 :=
  match c with
  | CallStartGame value _ =>
      if negb (isActive g) && (value =? ENTRY_FEE)
      then (mkGameState 1 0 0 0 true, h) else (g, h)
  | CallPumpBalloon =>
      if isActive g && (currentRound g <=? MAX_ROUNDS) && (pumpCount g <? 2)
         && (pendingPoints g + 10 * 2 ^ pumpCount g <=? MAX_UINT256)
      then (mkGameState (currentRound g) (pumpCount g + 1)
              (pendingPoints g + 10 * 2 ^ pumpCount g) (totalScore g) true, h)
      else (g, h)
  | CallCollectPoints =>
      if isActive g && (0 <? pumpCount g)
         && (totalScore g + pendingPoints g <=? MAX_UINT256)
      then
        let total := totalScore g + pendingPoints g in
        if currentRound g <? MAX_ROUNDS
        then (mkGameState (currentRound g + 1) 0 0 total true, h)
        else (mkGameState (currentRound g) (pumpCount g) (pendingPoints g)
                total false,
              if h <? total then total else h)
      else (g, h)
  end.

(** The calls [p] sends in a run, in order. *)
Definition calls_of (p : address) (txs : list Tx) : list Call :=
  call <$> filter (fun tx => sender tx = p) txs.

Definition play (cs : list Call) (gh : GameState * uint256)
    : GameState * uint256 :=
  foldl (fun gh c => player_step c gh.1 gh.2) gh cs.

(** The storage a transaction leaves: the old one when it reverts, else
    one of the four successor states. *)
Inductive step_shape (s : State) (tx : Tx) : State -> Prop :=
| shape_revert :
    succeeds (exec tx s) = false -> step_shape s tx s
| shape_start value timestamp :
    succeeds (exec tx s) = true ->
    call tx = CallStartGame value timestamp ->
    isActive (game_of s (sender tx)) = false ->
    value = ENTRY_FEE ->
    step_shape s tx (started (sender tx) timestamp s)
| shape_pump :
    succeeds (exec tx s) = true ->
    call tx = CallPumpBalloon ->
    isActive (game_of s (sender tx)) = true ->
    pumpCount (game_of s (sender tx)) < 2 ->
    step_shape s tx (pumped (sender tx) s)
| shape_bank_next :
    succeeds (exec tx s) = true ->
    call tx = CallCollectPoints ->
    isActive (game_of s (sender tx)) = true ->
    0 < pumpCount (game_of s (sender tx)) ->
    currentRound (game_of s (sender tx)) < MAX_ROUNDS ->
    step_shape s tx (banked_next (sender tx) s)
| shape_bank_last :
    succeeds (exec tx s) = true ->
    call tx = CallCollectPoints ->
    isActive (game_of s (sender tx)) = true ->
    0 < pumpCount (game_of s (sender tx)) ->
    MAX_ROUNDS <= currentRound (game_of s (sender tx)) ->
    step_shape s tx (banked_last (sender tx) s).

(** ** The life of a game *)

(** The score of a whole game: five rounds of 10 or 30 points. *)
Definition final_score (x : uint256) : Prop :=
  exists k, k <= 5 /\ x = 50 + 20 * k.

(** A stored game with the high score beside it was never started, is
    being played (with [k] rounds of two pumps banked so far), or is
    finished. *)
Inductive phase (g : GameState) (h : uint256) : Prop :=
| phase_never :
    g = zeroGame -> h = 0 -> phase g h
| phase_playing k :
    isActive g = true ->
    1 <= currentRound g -> currentRound g <= MAX_ROUNDS ->
    k + 1 <= currentRound g ->
    totalScore g = 10 * (currentRound g - 1) + 20 * k ->
    h = 0 \/ final_score h ->
    phase g h
| phase_finished :
    isActive g = false ->
    currentRound g = MAX_ROUNDS ->
    1 <= pumpCount g ->
    final_score (totalScore g) ->
    final_score h ->
    totalScore g <= h ->
    phase g h.

(** The registry lists an address once, and exactly when it has started a
    game. *)
Definition registry_ok (s : State) : Prop :=
  NoDup (players s) /\
  forall p, p ∈ players s <-> currentRound (game_of s p) <> 0.

(** ** Reading the event log *)

(** The final score an event reports for [p], when it is one of [p]'s
    [GameCompleted]. *)
Definition completed_by (p : address) (e : Event) : option uint256 :=
  match e with
  | GameCompleted q finalScore => if q =? p then Some finalScore else None
  | _ => None
  end.

Definition completed_scores (p : address) (log : list Event) : list uint256 :=
  omap (completed_by p) log.

Definition started_by (p : address) (e : Event) : bool :=
  match e with
  | GameStarted q _ => q =? p
  | _ => false
  end.

Definition count_started (p : address) (log : list Event) : nat :=
  length (filter (fun e => started_by p e = true) log).

Definition is_popped (e : Event) : bool :=
  match e with
  | BalloonPopped _ _ _ => true
  | _ => false
  end.

Definition maxN (l : list uint256) : uint256 := foldr N.max 0 l.

(** ** Playing a game to its end *)

(** The calls that end the game [g] soonest: a pump if the current round
    has none, a bank, then a pump and a bank for every round left. *)
Definition finishing_calls (g : GameState) : list Call :=
  (if pumpCount g =? 0 then [CallPumpBalloon] else [])
  ++ CallCollectPoints
  :: concat (replicate (N.to_nat (MAX_ROUNDS - currentRound g))
               [CallPumpBalloon; CallCollectPoints]).

(** ** Ether *)

(** The contract with its ether: [address(this).balance] beside the
    storage. *)
Record Ledger : Type := mkLedger { storage : State; balance : uint256 }.

(** [getContractBalance() external view] *)
Definition getContractBalance (l : Ledger) : uint256 := balance l.

(** [withdraw() external]: [payable(msg.sender).transfer] hands the whole
    balance to the caller, who is whoever calls, and reverts without a
    reason when the caller does not take it.  The 2300 gas [transfer]
    forwards do not let the caller write storage or call back with
    ether, so the payment is one atomic step. *)
Definition withdraw (sender : address) (accepts : bool) (l : Ledger)
    : result (Ledger * (N * N)) :=
  if accepts then Ok (mkLedger (storage l) 0, (sender, balance l))
  else Revert (RequireFailed EmptyString).

(** What can happen to the contract: a call of a game function (only
    [startGame] is payable), a call of [withdraw], or ether credited
    without running any code of the contract. *)
Inductive Action : Type :=
| ActGame (tx : Tx)
| ActWithdraw (sender : address) (accepts : bool)
| ActCredit (amount : uint256).

Definition value_of (c : Call) : uint256 :=
  match c with CallStartGame value _ => value | _ => 0 end.

(** The ledger after an action; a reverted call returns its ether. *)
Definition act (l : Ledger) (a : Action) : Ledger :=
  match a with
  | ActGame tx =>
      match exec tx (storage l) with
      | Ok s' => mkLedger s' (balance l + value_of (call tx))
      | Revert _ => l
      end
  | ActWithdraw sender accepts =>
      match withdraw sender accepts l with
      | Ok (l', _) => l'
      | Revert _ => l
      end
  | ActCredit amount => mkLedger (storage l) (balance l + amount)
  end.

Definition acts (l : Ledger) (al : list Action) : Ledger := foldl act l al.

(** The ether paid out, paid in as entry fees and credited along a
    sequence of actions. *)
Fixpoint paid_out (al : list Action) (l : Ledger) : uint256 :=
  match al with
  | [] => 0
  | a :: rest =>
      match a with
      | ActWithdraw sender accepts =>
          match withdraw sender accepts l with
          | Ok (_, (_, amount)) => amount
          | Revert _ => 0
          end
      | _ => 0
      end + paid_out rest (act l a)
  end.

Fixpoint games_paid (al : list Action) (l : Ledger) : uint256 :=
  match al with
  | [] => 0
  | a :: rest =>
      match a with
      | ActGame tx =>
          if is_start (call tx) && succeeds (exec tx (storage l))
          then 1 else 0
      | _ => 0
      end + games_paid rest (act l a)
  end.

Definition credited (al : list Action) : uint256 :=
  foldr (fun a acc => match a with ActCredit amount => amount + acc
                      | _ => acc end) 0 al.

(** ** The game state the frontend keeps ([app/page.tsx])

    The React component mirrors the caller's game in a [gameState] of its
    own, of the same five fields, [null] before any game.  Its numbers
    are doubles; they are exact on integers up to [MAX_SAFE_INTEGER], and
    every field of a reachable on-chain game is far below that.  What is
    modelled is the [gameState] each callback writes, as a function of
    the [gameState] it read and of how the wallet answered; status text,
    sounds, animation and the transaction list are left out. *)

Definition MAX_SAFE_INTEGER : N := Eval vm_compute in 2 ^ 53 - 1.

(** How [provider.request] ended: it resolved, or it threw an error whose
    message the pump handler reads as a pop ([isPoppedError]) or not. *)
Inductive WalletReply : Type :=
| Resolved
| Rejected (isPoppedError : bool).

(** [pumpBalloon], with [connected] for [provider && subAccountAddress]. *)
Definition ui_pumpBalloon (connected : bool) (reply : WalletReply)
    (gameState : option GameState) : option GameState :=
  match gameState with
  | None => gameState
  | Some g =>
      if negb connected || negb (isActive g) then gameState
      else
        let newPumpCount := pumpCount g + 1 in
        let earnedPoints := 10 * 2 ^ (newPumpCount - 1) in
        match reply with
        | Resolved =>
            Some (with_pendingPoints (pendingPoints g + earnedPoints)
                    (with_pumpCount newPumpCount g))
        | Rejected true =>
            (* Move to next round *)
            if currentRound g <? 5
            then Some (with_isActive true
                         (with_pendingPoints 0
                            (with_pumpCount 0
                               (with_currentRound (currentRound g + 1) g))))
            else Some (with_isActive false g)
        | Rejected false => gameState
        end
  end.

(** [collectPoints] *)
Definition ui_collectPoints (connected : bool) (reply : WalletReply)
    (gameState : option GameState) : option GameState :=
  match gameState with
  | None => gameState
  | Some g =>
      if negb connected || negb (isActive g) then gameState
      else if pumpCount g =? 0 then gameState
      else
        match reply with
        | Resolved =>
            let newTotalScore := totalScore g + pendingPoints g in
            (* Check if game is complete *)
            if 5 <=? currentRound g
            then Some (with_isActive false (with_totalScore newTotalScore g))
            else Some (with_totalScore newTotalScore
                         (with_pendingPoints 0
                            (with_pumpCount 0
                               (with_currentRound (currentRound g + 1) g))))
        | Rejected _ => gameState
        end
  end.

(** The [highScore] the component holds after [collectPoints]:
    [setHighScore(newTotalScore)] when the game is complete and
    [newTotalScore > highScore]. *)
Definition ui_highScore (connected : bool) (reply : WalletReply)
    (gameState : option GameState) (highScore : N) : N :=
  match gameState with
  | None => highScore
  | Some g =>
      if negb connected || negb (isActive g) then highScore
      else if pumpCount g =? 0 then highScore
      else
        match reply with
        | Resolved =>
            let newTotalScore := totalScore g + pendingPoints g in
            if 5 <=? currentRound g
            then if highScore <? newTotalScore
                 then newTotalScore else highScore
            else highScore
        | Rejected _ => highScore
        end
  end.

(** Every number of the game fits a double exactly. *)
Definition fits_double (g : GameState) : Prop :=
  currentRound g <= MAX_SAFE_INTEGER /\ pumpCount g <= MAX_SAFE_INTEGER /\
  pendingPoints g <= MAX_SAFE_INTEGER /\ totalScore g <= MAX_SAFE_INTEGER.

(** * Proofs *)

(** ** Storage lemmas *)

Section Storage.
Implicit Types (s : State) (p q : N) (g : GameState).

Lemma game_of_set_game_eq p g s : game_of (set_game p g s) p = g.
Proof. unfold game_of, set_game; simpl. by rewrite lookup_insert_eq. Qed.

Lemma game_of_set_game_ne p q g s :
  p <> q -> game_of (set_game p g s) q = game_of s q.
Proof.
  intros Hne. unfold game_of, set_game; simpl.
  by rewrite lookup_insert_ne.
Qed.

Lemma game_of_set_highScore p q v s :
  game_of (set_highScore p v s) q = game_of s q.
Proof. reflexivity. Qed.

Lemma game_of_emit e q s : game_of (emit e s) q = game_of s q.
Proof. reflexivity. Qed.

Lemma game_of_push_player p q s : game_of (push_player p s) q = game_of s q.
Proof. reflexivity. Qed.

Lemma highScore_of_set_highScore_eq p v s :
  highScore_of (set_highScore p v s) p = v.
Proof. unfold highScore_of, set_highScore; simpl. by rewrite lookup_insert_eq. Qed.

Lemma highScore_of_set_highScore_ne p q v s :
  p <> q -> highScore_of (set_highScore p v s) q = highScore_of s q.
Proof.
  intros Hne. unfold highScore_of, set_highScore; simpl.
  by rewrite lookup_insert_ne.
Qed.

Lemma highScore_of_set_game p q g s :
  highScore_of (set_game p g s) q = highScore_of s q.
Proof. reflexivity. Qed.

Lemma highScore_of_emit e q s : highScore_of (emit e s) q = highScore_of s q.
Proof. reflexivity. Qed.

Lemma highScore_of_push_player p q s :
  highScore_of (push_player p s) q = highScore_of s q.
Proof. reflexivity. Qed.
End Storage.

Create Rewrite HintDb storage.
#[export] Hint Rewrite game_of_set_game_eq game_of_set_highScore game_of_emit
  game_of_push_player highScore_of_set_highScore_eq highScore_of_set_game
  highScore_of_emit highScore_of_push_player : storage.
#[export] Hint Rewrite game_of_set_game_ne highScore_of_set_highScore_ne
  using congruence : storage.

(** ** The functions, case by case *)

Lemma startGame_cases p value timestamp s :
  startGame p value timestamp s =
  if isActive (game_of s p) then Revert AlreadyActive
  else if value =? ENTRY_FEE then Ok (started p timestamp s)
  else Revert WrongFee.
Proof.
  unfold startGame, started, require.
  destruct (isActive (game_of s p)); simpl; [reflexivity|].
  destruct (value =? ENTRY_FEE); reflexivity.
Qed.

Lemma pumpBalloon_cases p s :
  pumpBalloon p s =
  let g := game_of s p in
  if negb (isActive g) then Revert NoActiveGame
  else if negb (currentRound g <=? MAX_ROUNDS) then Revert RoundExhausted
  else if negb (pumpCount g <? 2) then Revert PumpCapReached
  else if pendingPoints g + 10 * 2 ^ pumpCount g <=? MAX_UINT256
       then Ok (pumped p s)
       else Revert ARITHMETIC_PANIC.
Proof.
  unfold pumpBalloon, pumped, require.
  destruct (game_of s p) as [r pc pp ts a] eqn:Hg; simpl.
  destruct a; simpl; [|reflexivity].
  destruct (r <=? MAX_ROUNDS); simpl; [|reflexivity].
  destruct (pc <? 2) eqn:Hpc; simpl; [|reflexivity].
  apply N.ltb_lt in Hpc.
  assert (pc = 0 \/ pc = 1) as [-> | ->] by lia;
    unfold checked_add, checked_sub, checked_pow, checked_mul; simpl.
  - change (0 + 1 - 1) with 0.
    destruct (pp + 10 * 2 ^ 0 <=? MAX_UINT256); reflexivity.
  - change (1 + 1 - 1) with 1.
    destruct (pp + 10 * 2 ^ 1 <=? MAX_UINT256); reflexivity.
Qed.

Lemma collectPoints_cases p s :
  collectPoints p s =
  let g := game_of s p in
  if negb (isActive g) then Revert NoActiveGame
  else if negb (0 <? pumpCount g) then Revert NothingToBank
  else if negb (totalScore g + pendingPoints g <=? MAX_UINT256)
       then Revert ARITHMETIC_PANIC
  else if currentRound g <? MAX_ROUNDS then Ok (banked_next p s)
  else Ok (banked_last p s).
Proof.
  unfold collectPoints, banked_next, banked_last, require.
  destruct (game_of s p) as [r pc pp ts a] eqn:Hg; simpl.
  destruct a; simpl; [|reflexivity].
  destruct (0 <? pc); simpl; [|reflexivity].
  unfold checked_add at 1.
  destruct (ts + pp <=? MAX_UINT256); simpl; [|reflexivity].
  destruct (r <? MAX_ROUNDS) eqn:Hr; [|reflexivity].
  apply N.ltb_lt in Hr. unfold MAX_ROUNDS in Hr.
  unfold checked_add.
  assert ((r + 1 <=? MAX_UINT256) = true) as ->.
  { apply N.leb_le. unfold MAX_UINT256. lia. }
  reflexivity.
Qed.

Lemma game_of_banked_last p s :
  let g := game_of s p in
  game_of (banked_last p s) p =
  mkGameState (currentRound g) (pumpCount g) (pendingPoints g)
    (totalScore g + pendingPoints g) false.
Proof.
  unfold banked_last, _endGame; simpl.
  destruct (_ <? _); autorewrite with storage; reflexivity.
Qed.

Lemma highScore_of_banked_last p s :
  let g := game_of s p in
  highScore_of (banked_last p s) p =
  if highScore_of s p <? totalScore g + pendingPoints g
  then totalScore g + pendingPoints g else highScore_of s p.
Proof.
  unfold banked_last, _endGame; simpl. autorewrite with storage. simpl.
  destruct (_ <? _); autorewrite with storage; reflexivity.
Qed.

(** Lookups in the four successor states. *)
Section Successors.
Implicit Types (s : State) (p q : N).

Lemma game_of_started p timestamp s :
  game_of (started p timestamp s) p = mkGameState 1 0 0 0 true.
Proof. unfold started. by autorewrite with storage. Qed.

Lemma highScore_of_started p q timestamp s :
  highScore_of (started p timestamp s) q = highScore_of s q.
Proof. unfold started. autorewrite with storage. by destruct (_ =? _). Qed.

Lemma game_of_started_ne p q timestamp s :
  p <> q -> game_of (started p timestamp s) q = game_of s q.
Proof.
  intros Hne. unfold started. autorewrite with storage.
  by destruct (_ =? _).
Qed.

Lemma game_of_pumped p s :
  let g := game_of s p in
  game_of (pumped p s) p =
  mkGameState (currentRound g) (pumpCount g + 1)
    (pendingPoints g + 10 * 2 ^ pumpCount g) (totalScore g) true.
Proof. unfold pumped; simpl. by autorewrite with storage. Qed.

Lemma highScore_of_pumped p q s :
  highScore_of (pumped p s) q = highScore_of s q.
Proof. reflexivity. Qed.

Lemma game_of_pumped_ne p q s :
  p <> q -> game_of (pumped p s) q = game_of s q.
Proof. intros Hne. unfold pumped; simpl. by autorewrite with storage. Qed.

Lemma game_of_banked_next p s :
  let g := game_of s p in
  game_of (banked_next p s) p =
  mkGameState (currentRound g + 1) 0 0
    (totalScore g + pendingPoints g) true.
Proof. unfold banked_next; simpl. by autorewrite with storage. Qed.

Lemma highScore_of_banked_next p q s :
  highScore_of (banked_next p s) q = highScore_of s q.
Proof. reflexivity. Qed.

Lemma game_of_banked_next_ne p q s :
  p <> q -> game_of (banked_next p s) q = game_of s q.
Proof.
  intros Hne. unfold banked_next; simpl. by autorewrite with storage.
Qed.

Lemma game_of_banked_last_ne p q s :
  p <> q -> game_of (banked_last p s) q = game_of s q.
Proof.
  intros Hne. unfold banked_last, _endGame; simpl.
  destruct (_ <? _); by autorewrite with storage.
Qed.

Lemma highScore_of_banked_last_ne p q s :
  p <> q -> highScore_of (banked_last p s) q = highScore_of s q.
Proof.
  intros Hne. unfold banked_last, _endGame; simpl.
  autorewrite with storage.
  destruct (_ <? _); by autorewrite with storage.
Qed.
End Successors.

(** A transaction sent by somebody else changes neither the game nor the
    high score of [p]. *)
Lemma step_other p s tx :
  sender tx <> p ->
  game_of (step s tx) p = game_of s p /\
  highScore_of (step s tx) p = highScore_of s p.
Proof.
  destruct tx as [q c]; simpl. intros Hne.
  unfold step, exec; simpl. destruct c.
  - rewrite startGame_cases.
    destruct (isActive _); [done|]. destruct (_ =? _); [|done].
    by rewrite game_of_started_ne, highScore_of_started.
  - rewrite pumpBalloon_cases; simpl.
    repeat (destruct (negb _); [done|]). destruct (_ <=? _); [|done].
    by rewrite game_of_pumped_ne.
  - rewrite collectPoints_cases; simpl.
    repeat (destruct (negb _); [done|]). destruct (_ <? _).
    + by rewrite game_of_banked_next_ne.
    + by rewrite game_of_banked_last_ne, highScore_of_banked_last_ne.
Qed.

(** Every transaction acts on a player's game as one [game_step]. *)
Lemma step_game_step p s tx :
  game_step (game_of s p) (highScore_of s p) (performed p tx s)
    (game_of (step s tx) p) (highScore_of (step s tx) p).
Proof.
  unfold performed. destruct (decide (sender tx = p)) as [Hp | Hne].
  2: { destruct (step_other p s tx Hne) as [-> ->]. constructor. }
  destruct tx as [q c]; simpl in Hp; subst q.
  unfold step, exec; simpl. destruct c.
  - rewrite startGame_cases.
    destruct (isActive (game_of s p)) eqn:Ha; simpl; [constructor|].
    destruct (value =? ENTRY_FEE) eqn:Hv; simpl; [|constructor].
    rewrite game_of_started, highScore_of_started.
    apply N.eqb_eq in Hv. by constructor.
  - rewrite pumpBalloon_cases; simpl.
    destruct (isActive (game_of s p)) eqn:Ha; simpl; [|constructor].
    destruct (_ <=? MAX_ROUNDS) eqn:Hr; simpl; [|constructor].
    destruct (_ <? 2) eqn:Hc; simpl; [|constructor].
    destruct (_ <=? MAX_UINT256) eqn:Ho; simpl; [|constructor].
    rewrite game_of_pumped, highScore_of_pumped.
    apply N.leb_le in Hr, Ho. apply N.ltb_lt in Hc. by constructor.
  - rewrite collectPoints_cases; simpl.
    destruct (isActive (game_of s p)) eqn:Ha; simpl; [|constructor].
    destruct (0 <? _) eqn:Hc; simpl; [|constructor].
    destruct (_ <=? MAX_UINT256) eqn:Ho; simpl; [|constructor].
    apply N.leb_le in Ho. apply N.ltb_lt in Hc.
    destruct (_ <? MAX_ROUNDS) eqn:Hr; simpl.
    + rewrite game_of_banked_next, highScore_of_banked_next.
      apply N.ltb_lt in Hr. by constructor.
    + rewrite game_of_banked_last, highScore_of_banked_last.
      apply N.ltb_ge in Hr. by constructor.
Qed.

(** ** The leaderboard *)

(** *** Loops that fill two arrays index by index *)

Section ArrayLoops.
Local Open Scope nat_scope.

Lemma aget_lookup {A} (l : list A) i x : l !! i = Some x -> aget l i = Ok x.
Proof. unfold aget. by intros ->. Qed.

Lemma aset_lt {A} (l : list A) i x :
  i < length l -> aset l i x = Ok (<[i := x]> l).
Proof. unfold aset. intros Hi. by rewrite decide_True. Qed.

Context {A B : Type} (n : nat) (f : nat -> A) (g : nat -> B).
Context (body : nat -> list A * list B -> result (list A * list B)).
Hypothesis body_fills : forall k a b,
  k < n -> length a = n -> length b = n ->
  body k (a, b) = Ok (<[k := f k]> a, <[k := g k]> b).

Lemma fill_loop m : forall k a b,
  k + m = n -> length a = n -> length b = n ->
  exists a' b',
    for_loop m k body (a, b) = Ok (a', b') /\
    length a' = n /\ length b' = n /\
    (forall i, i < k -> a' !! i = a !! i /\ b' !! i = b !! i) /\
    (forall i, k <= i < n -> a' !! i = Some (f i) /\ b' !! i = Some (g i)).
Proof.
  induction m as [|m IH]; intros k a b Hk Ha Hb; simpl.
  - exists a, b. repeat split; auto; lia.
  - rewrite body_fills by lia. simpl.
    destruct (IH (S k) (<[k := f k]> a) (<[k := g k]> b))
      as (a' & b' & Hrun & Ha' & Hb' & Hlow & Hhigh);
      rewrite ?length_insert; try lia.
    exists a', b'. repeat split; auto.
    + destruct (Hlow i) as [-> _]; [lia|].
      apply list_lookup_insert_ne. lia.
    + destruct (Hlow i) as [_ ->]; [lia|].
      apply list_lookup_insert_ne. lia.
    + destruct (decide (i = k)) as [-> | Hne].
      * destruct (Hlow k) as [-> _]; [lia|].
        apply list_lookup_insert_eq. lia.
      * apply Hhigh. lia.
    + destruct (decide (i = k)) as [-> | Hne].
      * destruct (Hlow k) as [_ ->]; [lia|].
        apply list_lookup_insert_eq. lia.
      * apply Hhigh. lia.
Qed.
End ArrayLoops.

Section CopyLoops.
Local Open Scope nat_scope.

Lemma copy_loop_result s :
  let n := length (players s) in
  for_range 0 n (copy_body s) (replicate n 0%N, replicate n 0%N) =
  Ok (players s, highScore_of s <$> players s).
Proof.
  intros n. unfold for_range. rewrite Nat.sub_0_r.
  destruct (fill_loop n (fun k => default 0%N (players s !! k))
              (fun k => highScore_of s (default 0%N (players s !! k)))
              (copy_body s)) with (m := n) (k := 0)
              (a := replicate n 0%N) (b := replicate n 0%N)
    as (a' & b' & Hrun & Ha' & Hb' & _ & Hhigh);
    rewrite ?length_replicate; auto.
  { intros k a b Hk Ha Hb. unfold copy_body.
    destruct (lookup_lt_is_Some_2 (players s) k Hk) as [x Hx].
    rewrite (aget_lookup _ _ _ Hx); simpl.
    rewrite aset_lt by lia; simpl. rewrite aset_lt by lia; simpl.
    by rewrite Hx. }
  rewrite Hrun. f_equal. f_equal.
  - apply list_eq. intros i. destruct (decide (i < n)) as [Hi | Hi].
    + destruct (Hhigh i) as [-> _]; [lia|].
      destruct (lookup_lt_is_Some_2 (players s) i Hi) as [x ->]. done.
    + rewrite !lookup_ge_None_2; auto; lia.
  - apply list_eq. intros i. rewrite list_lookup_fmap.
    destruct (decide (i < n)) as [Hi | Hi].
    + destruct (Hhigh i) as [_ ->]; [lia|].
      destruct (lookup_lt_is_Some_2 (players s) i Hi) as [x ->]. done.
    + rewrite !lookup_ge_None_2; auto; lia.
Qed.

Lemma top_loop_result (tp ts : list N) size :
  size <= length tp -> size <= length ts ->
  for_range 0 size (top_body (tp, ts))
    (replicate size 0%N, replicate size 0%N) =
  Ok (take size tp, take size ts).
Proof.
  intros Htp Hts. unfold for_range. rewrite Nat.sub_0_r.
  destruct (fill_loop size (fun k => default 0%N (tp !! k))
              (fun k => default 0%N (ts !! k))
              (top_body (tp, ts))) with (m := size) (k := 0)
              (a := replicate size 0%N) (b := replicate size 0%N)
    as (a' & b' & Hrun & Ha' & Hb' & _ & Hhigh);
    rewrite ?length_replicate; auto.
  { intros k a b Hk Ha Hb. unfold top_body; simpl.
    destruct (lookup_lt_is_Some_2 tp k) as [x Hx]; [lia|].
    destruct (lookup_lt_is_Some_2 ts k) as [y Hy]; [lia|].
    rewrite (aget_lookup _ _ _ Hx); simpl.
    rewrite aset_lt by lia; simpl.
    rewrite (aget_lookup _ _ _ Hy); simpl.
    rewrite aset_lt by lia; simpl.
    by rewrite Hx, Hy. }
  rewrite Hrun. f_equal. f_equal.
  - apply list_eq. intros i. destruct (decide (i < size)) as [Hi | Hi].
    + destruct (Hhigh i) as [-> _]; [lia|].
      rewrite lookup_take_lt by lia.
      destruct (lookup_lt_is_Some_2 tp i) as [x ->]; [lia|]. done.
    + rewrite lookup_take_ge by lia. apply lookup_ge_None_2. lia.
  - apply list_eq. intros i. destruct (decide (i < size)) as [Hi | Hi].
    + destruct (Hhigh i) as [_ ->]; [lia|].
      rewrite lookup_take_lt by lia.
      destruct (lookup_lt_is_Some_2 ts i) as [x ->]; [lia|]. done.
    + rewrite lookup_take_ge by lia. apply lookup_ge_None_2. lia.
Qed.
End CopyLoops.

(** *** The sorting loops *)

Section Sorting.
Local Open Scope nat_scope.

Lemma insert_cons_Permutation {A} (l : list A) j y a :
  l !! j = Some y -> y :: <[j := a]> l ≡ₚ a :: l.
Proof.
  revert j. induction l as [|b l IH]; intros [|j] Hj; simplify_eq/=.
  - apply perm_swap.
  - rewrite perm_swap. rewrite (IH j Hj). apply perm_swap.
Qed.

Lemma swap_Permutation {A} (l : list A) i j x y :
  i <> j -> l !! i = Some x -> l !! j = Some y ->
  <[j := x]> (<[i := y]> l) ≡ₚ l.
Proof.
  revert i j. induction l as [|a l IH]; intros [|i] [|j] Hne Hi Hj;
    simplify_eq/=.
  - by apply insert_cons_Permutation.
  - by apply insert_cons_Permutation.
  - f_equiv. apply IH; auto.
Qed.

Lemma sort_body_result i j (tp ts : list N) pi pj si sj :
  tp !! i = Some pi -> tp !! j = Some pj ->
  ts !! i = Some si -> ts !! j = Some sj ->
  sort_body i j (tp, ts) =
  Ok (if (si <? sj)%N
      then (<[j := pi]> (<[i := pj]> tp), <[j := si]> (<[i := sj]> ts))
      else (tp, ts)).
Proof.
  intros Hpi Hpj Hsi Hsj. unfold sort_body.
  rewrite (aget_lookup _ _ _ Hsj), (aget_lookup _ _ _ Hsi); simpl.
  destruct (si <? sj)%N; [|reflexivity].
  rewrite (aget_lookup _ _ _ Hpi), (aget_lookup _ _ _ Hpj); simpl.
  apply lookup_lt_Some in Hpi, Hpj, Hsi, Hsj.
  rewrite (aset_lt ts) by done; simpl.
  rewrite aset_lt by (by rewrite length_insert); simpl.
  rewrite (aset_lt tp) by done; simpl.
  rewrite aset_lt by (by rewrite length_insert); simpl.
  reflexivity.
Qed.

Lemma inner_loop n i (tp0 ts0 : list N) (Hi : i < n) m :
  forall j tp ts,
    j + m = n -> i < j -> length tp = n -> length ts = n ->
    zip tp ts ≡ₚ zip tp0 ts0 -> prefix_done i ts -> head_done i j ts ->
    exists tp' ts',
      for_loop m j (sort_body i) (tp, ts) = Ok (tp', ts') /\
      length tp' = n /\ length ts' = n /\
      zip tp' ts' ≡ₚ zip tp0 ts0 /\
      prefix_done i ts' /\ head_done i n ts'.
Proof.
  induction m as [|m IH]; intros j tp ts Hj Hij Htp Hts Hperm Hpre Hhead.
  { assert (j = n) as -> by lia. exists tp, ts. simpl. auto 10. }
  destruct (lookup_lt_is_Some_2 tp i) as [pi Hpi]; [lia|].
  destruct (lookup_lt_is_Some_2 tp j) as [pj Hpj]; [lia|].
  destruct (lookup_lt_is_Some_2 ts i) as [si Hsi]; [lia|].
  destruct (lookup_lt_is_Some_2 ts j) as [sj Hsj]; [lia|].
  cbn [for_loop]. rewrite (sort_body_result i j tp ts pi pj si sj) by done.
  cbn [bind]. destruct (si <? sj)%N eqn:Hlt.
  - apply N.ltb_lt in Hlt.
    apply IH; rewrite ?length_insert; try lia.
    + rewrite <- !insert_zip_with. rewrite <- Hperm.
      apply swap_Permutation; [lia| |];
        rewrite lookup_zip_with; simplify_option_eq; done.
    + intros a b x y Ha Hab Hx Hy.
      rewrite !list_lookup_insert_ne in Hx by lia.
      destruct (decide (b = j)) as [-> | Hbj].
      { rewrite list_lookup_insert_eq in Hy
          by (rewrite length_insert; lia).
        simplify_eq. eapply (Hpre a i); eauto. }
      rewrite list_lookup_insert_ne in Hy by lia.
      destruct (decide (b = i)) as [-> | Hbi].
      { rewrite list_lookup_insert_eq in Hy by lia.
        simplify_eq. eapply (Hpre a j); eauto. lia. }
      rewrite list_lookup_insert_ne in Hy by lia.
      eapply (Hpre a b); eauto.
    + intros b x y Hb Hx Hy.
      rewrite list_lookup_insert_ne in Hx by lia.
      rewrite list_lookup_insert_eq in Hx by lia. simplify_eq.
      destruct (decide (b = j)) as [-> | Hbj].
      { rewrite list_lookup_insert_eq in Hy
          by (rewrite length_insert; lia).
        simplify_eq. lia. }
      rewrite !list_lookup_insert_ne in Hy by lia.
      specialize (Hhead b si y). etrans; [apply Hhead; auto; lia|]. lia.
  - apply N.ltb_ge in Hlt.
    apply IH; auto; try lia.
    intros b x y Hb Hx Hy. simplify_eq.
    destruct (decide (b = j)) as [-> | Hbj]; [by simplify_eq|].
    eapply Hhead; eauto. lia.
Qed.

Lemma outer_loop n (tp0 ts0 : list N) m :
  forall i tp ts,
    i + m = n -> length tp = n -> length ts = n ->
    zip tp ts ≡ₚ zip tp0 ts0 -> prefix_done i ts ->
    exists tp' ts',
      for_loop m i (fun i => for_range (i + 1) n (sort_body i)) (tp, ts)
        = Ok (tp', ts') /\
      length tp' = n /\ length ts' = n /\
      zip tp' ts' ≡ₚ zip tp0 ts0 /\ prefix_done n ts'.
Proof.
  induction m as [|m IH]; intros i tp ts Hi Htp Hts Hperm Hpre.
  { assert (i = n) as -> by lia. exists tp, ts. simpl. auto 10. }
  cbn [for_loop]. unfold for_range at 1.
  destruct (inner_loop n i tp0 ts0) with (m := n - (i + 1)) (j := i + 1)
      (tp := tp) (ts := ts)
    as (tp1 & ts1 & Hrun & Htp1 & Hts1 & Hperm1 & Hpre1 & Hhead1);
    auto; try lia.
  { intros b x y Hb. lia. }
  rewrite Hrun; cbn [bind].
  apply IH; auto; try lia.
  intros a b x y Ha Hab Hx Hy.
  destruct (decide (a = i)) as [-> | Hai].
  - eapply Hhead1; eauto. apply lookup_lt_Some in Hy. lia.
  - eapply (Hpre1 a b); eauto. lia.
Qed.

Lemma sort_loops_result (tp ts : list N) :
  length tp = length ts ->
  exists tp' ts',
    sort_loops (length tp) (tp, ts) = Ok (tp', ts') /\
    length tp' = length tp /\ length ts' = length tp /\
    zip tp' ts' ≡ₚ zip tp ts /\ prefix_done (length tp) ts'.
Proof.
  intros Hlen. unfold sort_loops, for_range. rewrite Nat.sub_0_r.
  apply outer_loop; auto.
  intros a b x y Ha. lia.
Qed.
End Sorting.

(** *** What the leaderboard returns *)

Section Leaderboard.
Local Open Scope nat_scope.

Lemma pointwise_descending (l : list N) :
  (forall a b x y, a < b -> l !! a = Some x -> l !! b = Some y ->
     (y <= x)%N) ->
  StronglySorted descending l.
Proof.
  induction l as [|x l IH]; intros Hl; constructor.
  - apply IH. intros a b u v Hab Hu Hv.
    apply (Hl (S a) (S b)); auto. lia.
  - apply Forall_forall. intros y Hy.
    apply list_elem_of_lookup in Hy as [b Hb].
    apply (Hl 0 (S b)); auto. lia.
Qed.

Lemma zip_fmap_r {A B} (f : A -> B) (l : list A) :
  zip l (f <$> l) = (fun a => (a, f a)) <$> l.
Proof. induction l as [|a l IH]; [done|]. csimpl. by rewrite IH. Qed.

Lemma getLeaderboard_result s :
  exists tp ts,
    getLeaderboard s =
      Ok (take (Nat.min (length (players s)) 10) tp,
          take (Nat.min (length (players s)) 10) ts) /\
    length tp = length (players s) /\ length ts = length (players s) /\
    zip tp ts ≡ₚ entries s /\
    prefix_done (length (players s)) ts.
Proof.
  unfold getLeaderboard. rewrite copy_loop_result. cbn [bind].
  destruct (sort_loops_result (players s) (highScore_of s <$> players s))
    as (tp & ts & Hrun & Htp & Hts & Hperm & Hpre).
  { by rewrite length_fmap. }
  exists tp, ts. rewrite Hrun. cbn [bind].
  assert ((if length (players s) <? 10 then length (players s) else 10)
          = Nat.min (length (players s)) 10) as ->.
  { destruct (Nat.ltb_spec (length (players s)) 10); lia. }
  rewrite top_loop_result by lia.
  rewrite zip_fmap_r in Hperm. auto.
Qed.
End Leaderboard.

(** ** Runs and the reachable states *)

Lemma run_cons tx txs s : run (tx :: txs) s = run txs (step s tx).
Proof. reflexivity. Qed.

Lemma run_snoc txs tx s : run (txs ++ [tx]) s = step (run txs s) tx.
Proof. unfold run. by rewrite foldl_app. Qed.

Lemma reachable_init : reachable initState.
Proof. by exists []. Qed.

Lemma reachable_step s tx : reachable s -> reachable (step s tx).
Proof. intros [txs ->]. exists (txs ++ [tx]). by rewrite run_snoc. Qed.

Lemma reachable_run s txs : reachable s -> reachable (run txs s).
Proof.
  revert s. induction txs as [|tx txs IH]; intros s Hs; [done|].
  rewrite run_cons. by apply IH, reachable_step.
Qed.

Lemma reachable_ind (P : State -> Prop) :
  P initState ->
  (forall s tx, reachable s -> P s -> P (step s tx)) ->
  forall s, reachable s -> P s.
Proof.
  intros Hinit Hstep s [txs ->].
  induction txs as [|tx txs IH] using rev_ind; [done|].
  rewrite run_snoc. apply Hstep; [by exists txs | done].
Qed.

(** A call that reverts changes nothing; a call that returns yields the
    next storage. *)
Lemma step_revert s tx e : exec tx s = Revert e -> step s tx = s.
Proof. unfold step. by intros ->. Qed.

Lemma step_ok s tx s' : exec tx s = Ok s' -> step s tx = s'.
Proof. unfold step. by intros ->. Qed.

(** ** The invariant of every stored game *)

Lemma pending_cases pc pp :
  pc <= 2 -> pp = 10 * (2 ^ pc - 1) ->
  (pc = 0 /\ pp = 0) \/ (pc = 1 /\ pp = 10) \/ (pc = 2 /\ pp = 30).
Proof.
  intros Hpc ->.
  assert (pc = 0 \/ pc = 1 \/ pc = 2) as [-> | [-> | ->]] by lia;
    vm_compute; tauto.
Qed.

Lemma game_step_ok g h c g' h' :
  game_ok g h -> game_step g h c g' h' -> game_ok g' h'.
Proof.
  intros [Hr Har Hp Hpp Ht Hh] Hstep. unfold MAX_ROUNDS in *.
  pose proof (pending_cases _ _ Hp Hpp) as Hcases.
  destruct Hstep as [ | v t Ha Hv | Ha Hr' Hc Ho | Ha Hc Hr' Ho
                     | Ha Hc Hr' Ho ];
    unfold MAX_ROUNDS in *; try rewrite Ha in *.
  - by constructor.
  - constructor; simpl; unfold MAX_ROUNDS; try lia; reflexivity.
  - destruct Hcases as [[Hpc Hpe] | [[Hpc Hpe] | [Hpc Hpe]]];
      constructor; simpl; unfold MAX_ROUNDS; rewrite ?Hpc, ?Hpe; try lia;
      reflexivity.
  - constructor; simpl; unfold MAX_ROUNDS; try lia; reflexivity.
  - constructor; simpl; unfold MAX_ROUNDS; try lia; try done.
    destruct (h <? _) eqn:Hlt; lia.
Qed.

Lemma game_of_init p : game_of initState p = zeroGame.
Proof. reflexivity. Qed.

Lemma highScore_of_init p : highScore_of initState p = 0.
Proof. reflexivity. Qed.

Lemma reachable_game_ok s p :
  reachable s -> game_ok (game_of s p) (highScore_of s p).
Proof.
  intros Hs. induction Hs as [|s tx _ IH] using reachable_ind.
  - rewrite game_of_init, highScore_of_init.
    constructor; simpl; try lia; try done.
  - eapply game_step_ok; [exact IH | apply step_game_step].
Qed.

(** ** One game: what is banked is what is scored *)

Lemma performed_Some p tx s c :
  performed p tx s = Some c ->
  sender tx = p /\ call tx = c /\ succeeds (exec tx s) = true.
Proof.
  unfold performed. destruct (decide _); [|done].
  destruct (succeeds _); [|done]. by intros [= <-].
Qed.

Lemma no_restart_cons p tx txs :
  no_restart p (tx :: txs) = true ->
  (forall value timestamp s,
     performed p tx s <> Some (CallStartGame value timestamp)) /\
  no_restart p txs = true.
Proof.
  unfold no_restart; simpl. intros [Htx Hrest]%andb_prop. split; [|done].
  intros v t s Hc. apply performed_Some in Hc as (Hp & Hcall & _).
  rewrite Hcall in Htx. apply N.eqb_eq in Hp. rewrite Hp in Htx. done.
Qed.

(** Case analysis on what a transaction does to the game of [p]. *)
Ltac game_cases p s tx :=
  let Hstep := fresh "Hstep" in
  let g' := fresh "g'" in
  let h' := fresh "h'" in
  let c := fresh "c" in
  pose proof (step_game_step p s tx) as Hstep;
  remember (game_of (step s tx) p) as g' eqn:Hg' in *;
  remember (highScore_of (step s tx) p) as h' eqn:Hh' in *;
  remember (performed p tx s) as c eqn:Hc in *;
  destruct Hstep.

Lemma total_after_run p txs : forall s,
  no_restart p txs = true ->
  totalScore (game_of (run txs s) p) =
  totalScore (game_of s p) + sumN (banked_points p txs s).
Proof.
  induction txs as [|tx txs IH]; intros s Hno.
  { simpl. lia. }
  apply no_restart_cons in Hno as [Hstart Hno].
  rewrite run_cons, (IH _ Hno). cbn [banked_points].
  unfold sumN. rewrite foldr_app. fold (sumN (banked_points p txs (step s tx))).
  game_cases p s tx; simpl; try lia.
  by destruct (Hstart value timestamp s).
Qed.

Lemma inactive_stays p txs : forall s,
  no_restart p txs = true ->
  isActive (game_of s p) = false ->
  game_of (run txs s) p = game_of s p /\ banked_points p txs s = [].
Proof.
  induction txs as [|tx txs IH]; intros s Hno Hin; [done|].
  apply no_restart_cons in Hno as [Hstart Hno].
  rewrite run_cons. cbn [banked_points].
  game_cases p s tx; try congruence.
  - destruct (IH (step s tx) Hno) as [-> ->]; rewrite <- Hg'; done.
  - by destruct (Hstart value timestamp s).
Qed.

Lemma banks_count p txs : forall s,
  no_restart p txs = true ->
  isActive (game_of s p) = true ->
  currentRound (game_of s p) <= MAX_ROUNDS ->
  currentRound (game_of s p) + N.of_nat (length (banked_points p txs s)) =
  if isActive (game_of (run txs s) p)
  then currentRound (game_of (run txs s) p) else MAX_ROUNDS + 1.
Proof.
  induction txs as [|tx txs IH]; intros s Hno Hact Hr.
  { simpl. rewrite Hact. lia. }
  apply no_restart_cons in Hno as [Hstart Hno].
  rewrite run_cons. cbn [banked_points]. rewrite length_app.
  game_cases p s tx; simpl.
  - rewrite <- (IH (step s tx)); rewrite <- ?Hg'; auto.
  - by destruct (Hstart value timestamp s).
  - rewrite <- (IH (step s tx)); rewrite <- ?Hg'; auto.
  - rewrite <- (IH (step s tx)); rewrite <- ?Hg'; simpl; auto;
      unfold MAX_ROUNDS in *; lia.
  - destruct (inactive_stays p txs (step s tx) Hno) as [-> ->];
      rewrite <- ?Hg'; simpl; auto.
    unfold MAX_ROUNDS in *. lia.
Qed.

(** C1. From a successful [startGame] of [p] on, over any run that stays
    within that game (transactions of other players, and reverted calls,
    included), [totalScore] equals the sum of the [pendingPoints] values
    committed by the banks of [p] that went through; once the game is
    complete (no longer active) exactly five banks went through. *)
Theorem C1_total_is_sum_of_banked p s value timestamp s0 txs :
  startGame p value timestamp s = Ok s0 ->
  no_restart p txs = true ->
  totalScore (game_of (run txs s0) p) = sumN (banked_points p txs s0) /\
  (isActive (game_of (run txs s0) p) = false ->
   length (banked_points p txs s0) = 5%nat).
Proof.
  intros Hstart Hno. rewrite startGame_cases in Hstart.
  destruct (isActive (game_of s p)); [done|].
  destruct (value =? ENTRY_FEE); [|done]. injection Hstart as <-.
  split.
  - rewrite total_after_run by done. by rewrite game_of_started.
  - intros Hdone.
    pose proof (banks_count p txs (started p timestamp s) Hno) as Hcount.
    rewrite game_of_started, Hdone in Hcount. simpl in Hcount.
    unfold MAX_ROUNDS in Hcount. lia.
Qed.

Lemma C1_total_is_sum_of_banked_witness :
  totalScore (game_of (run (txPump alice :: rounds alice 5)
                         (started alice 0 initState)) alice) = 70 /\
  length (banked_points alice (txPump alice :: rounds alice 5)
            (started alice 0 initState)) = 5%nat.
Proof.
  destruct (C1_total_is_sum_of_banked alice initState ENTRY_FEE 0
              (started alice 0 initState) (txPump alice :: rounds alice 5))
    as [Htotal Hfive]; [reflexivity | reflexivity |].
  split.
  - rewrite Htotal. vm_compute. reflexivity.
  - apply Hfive. vm_compute. reflexivity.
Defined.

(** ** Pumping *)

Lemma pumpBalloon_Ok p s s' :
  pumpBalloon p s = Ok s' ->
  s' = pumped p s /\ isActive (game_of s p) = true /\
  currentRound (game_of s p) <= MAX_ROUNDS /\ pumpCount (game_of s p) < 2.
Proof.
  rewrite pumpBalloon_cases; simpl.
  destruct (isActive _); [|done].
  destruct (_ <=? MAX_ROUNDS) eqn:Hr; [|done].
  destruct (_ <? 2) eqn:Hc; [|done].
  destruct (_ <=? MAX_UINT256); [|done]. simpl. intros [= <-].
  apply N.leb_le in Hr. apply N.ltb_lt in Hc. done.
Qed.

Lemma pumps_counted p txs : forall s,
  only_pumps p txs = true ->
  pumpCount (game_of (run txs s) p) =
  pumpCount (game_of s p) + pumps_done p txs s.
Proof.
  induction txs as [|tx txs IH]; intros s Honly.
  { simpl. lia. }
  unfold only_pumps in Honly; simpl in Honly.
  apply andb_prop in Honly as [Htx Honly].
  rewrite run_cons, (IH _ Honly). cbn [pumps_done].
  game_cases p s tx; simpl; try lia;
    symmetry in Hc; apply performed_Some in Hc as (Hp & Hcall & _);
    apply N.eqb_eq in Hp; rewrite Hp, Hcall in Htx; done.
Qed.

Lemma pumpBalloon_rejected p s :
  (isActive (game_of s p) = false -> pumpBalloon p s = Revert NoActiveGame) /\
  (isActive (game_of s p) = true -> 2 <= pumpCount (game_of s p) ->
   pumpBalloon p s =
     Revert (if currentRound (game_of s p) <=? MAX_ROUNDS
             then PumpCapReached else RoundExhausted)).
Proof.
  rewrite pumpBalloon_cases; simpl. split.
  - by intros ->.
  - intros -> Hcap; simpl. destruct (_ <=? MAX_ROUNDS); simpl; [|done].
    apply N.ltb_ge in Hcap. by rewrite Hcap.
Qed.

Lemma pumpBalloon_returns p s :
  reachable s -> isActive (game_of s p) = true ->
  pumpCount (game_of s p) < 2 -> pumpBalloon p s = Ok (pumped p s).
Proof.
  intros Hs Ha Hc. rewrite pumpBalloon_cases; simpl. rewrite Ha; simpl.
  destruct (reachable_game_ok s p Hs) as [Hr _ Hp Hpp _ _].
  apply N.leb_le in Hr. rewrite Hr; simpl.
  destruct (pending_cases _ _ Hp Hpp) as [[Hk Hq] | [[Hk Hq] | [Hk Hq]]];
    rewrite Hk, Hq; [reflexivity | reflexivity | lia].
Qed.

(** C2. A pump that goes through raises [pumpCount] by one, to [k] say,
    adds exactly [10 * 2^(k-1)] to [pendingPoints] and records that
    amount in its event; while the player only pumps, [pumpCount] grows
    by the number of pumps that went through, so [k] is the rank of the
    pump in its round.  In every reachable state with an active game and
    fewer than 2 pumps the pump goes through.  With an active game and
    the cap of 2 reached the pump is rejected, with no active game it is
    rejected, and the storage stays as it was. *)
Theorem C2_pump_points s p :
  (forall s', pumpBalloon p s = Ok s' ->
     let k := pumpCount (game_of s' p) in
     isActive (game_of s p) = true /\
     k = pumpCount (game_of s p) + 1 /\
     pendingPoints (game_of s' p) =
       pendingPoints (game_of s p) + 10 * 2 ^ (k - 1) /\
     currentRound (game_of s' p) = currentRound (game_of s p) /\
     totalScore (game_of s' p) = totalScore (game_of s p) /\
     isActive (game_of s' p) = true /\
     events s' =
       events s ++ [BalloonPumped p (currentRound (game_of s p)) k
                      (10 * 2 ^ (k - 1))]) /\
  (forall txs, only_pumps p txs = true ->
     pumpCount (game_of (run txs s) p) =
     pumpCount (game_of s p) + pumps_done p txs s) /\
  (reachable s -> isActive (game_of s p) = true ->
   pumpCount (game_of s p) < 2 -> succeeds (pumpBalloon p s) = true) /\
  (isActive (game_of s p) = true -> 2 <= pumpCount (game_of s p) ->
   pumpBalloon p s =
     Revert (if currentRound (game_of s p) <=? MAX_ROUNDS
             then PumpCapReached else RoundExhausted) /\
   step s (txPump p) = s) /\
  (isActive (game_of s p) = false ->
   pumpBalloon p s = Revert NoActiveGame /\ step s (txPump p) = s).
Proof.
  destruct (pumpBalloon_rejected p s) as [Hnone Hcap].
  split; [|split; [|split; [|split]]].
  - intros s' Hok. apply pumpBalloon_Ok in Hok as (-> & Ha & _ & _).
    rewrite game_of_pumped; simpl. rewrite N.add_sub. done.
  - intros txs Honly. by apply pumps_counted.
  - intros Hs Ha Hc. by rewrite pumpBalloon_returns.
  - intros Ha Hc. split; [by apply Hcap|].
    eapply step_revert. unfold exec; simpl. by apply Hcap.
  - intros Ha. split; [by apply Hnone|].
    eapply step_revert. unfold exec; simpl. by apply Hnone.
Qed.

Lemma C2_pump_points_witness :
  (pumpCount (game_of (pumped alice (started alice 0 initState)) alice) = 1 /\
   pendingPoints (game_of (pumped alice (started alice 0 initState)) alice)
     = 10) /\
  pumpCount (game_of (run [txPump alice; txPump bob; txPump alice; txPump alice]
                        (started alice 0 initState)) alice) = 2 /\
  succeeds (pumpBalloon alice (started alice 0 initState)) = true /\
  step (run [txStart alice; txPump alice; txPump alice] initState)
    (txPump alice)
    = run [txStart alice; txPump alice; txPump alice] initState /\
  step initState (txPump alice) = initState.
Proof.
  destruct (C2_pump_points (started alice 0 initState) alice)
    as (Hok & Hcount & Hlive & _ & _).
  destruct (C2_pump_points
              (run [txStart alice; txPump alice; txPump alice] initState)
              alice) as (_ & _ & _ & Hcap & _).
  destruct (C2_pump_points initState alice) as (_ & _ & _ & _ & Hnone).
  split; [split | split; [|split; [|split]]].
  - destruct (Hok (pumped alice (started alice 0 initState)))
      as (_ & Hk & _); [by vm_compute|].
    rewrite Hk. by vm_compute.
  - destruct (Hok (pumped alice (started alice 0 initState)))
      as (_ & _ & Hp & _); [by vm_compute|].
    rewrite Hp. by vm_compute.
  - rewrite Hcount; by vm_compute.
  - apply Hlive; [by exists [txStart alice] | by vm_compute | by vm_compute].
  - apply Hcap; by vm_compute.
  - apply Hnone. by vm_compute.
Defined.

(** ** Starting a game *)

(** C3. [startGame] reverts with AlreadyActive whenever the caller has an
    active game, whatever that game's round and score and whatever the
    fee, and with WrongFee when there is no active game and the fee is
    not exactly the entry fee; either way the storage stays as it was.
    Otherwise it returns, and the caller's game is the fresh one: round
    1, no pumps, no pending points, score 0, active. *)
Theorem C3_startGame s p value timestamp :
  (isActive (game_of s p) = true ->
   startGame p value timestamp s = Revert AlreadyActive) /\
  (isActive (game_of s p) = false -> value <> ENTRY_FEE ->
   startGame p value timestamp s = Revert WrongFee) /\
  (isActive (game_of s p) = true \/ value <> ENTRY_FEE ->
   succeeds (startGame p value timestamp s) = false /\
   step s (mkTx p (CallStartGame value timestamp)) = s) /\
  (isActive (game_of s p) = false -> value = ENTRY_FEE ->
   exists s', startGame p value timestamp s = Ok s' /\
     game_of s' p = mkGameState 1 0 0 0 true /\
     getGameState s' p = (1, 0, 0, 0, true)).
Proof.
  assert (forall e, startGame p value timestamp s = Revert e ->
            step s (mkTx p (CallStartGame value timestamp)) = s) as Hsame.
  { intros e He. by apply step_revert with (e := e). }
  rewrite startGame_cases in *.
  destruct (isActive (game_of s p)) eqn:Ha;
    [|destruct (N.eqb_spec value ENTRY_FEE) as [Hv | Hv]].
  - split; [done|]. split; [done|]. split; [|done].
    intros _. split; [done|]. by eapply Hsame.
  - split; [done|]. split; [done|]. split; [by intros [? | ?]|].
    intros _ _. exists (started p timestamp s).
    unfold getGameState. by rewrite game_of_started.
  - split; [done|]. split; [done|]. split; [|done].
    intros _. split; [done|]. by eapply Hsame.
Qed.

Lemma C3_startGame_witness :
  startGame alice ENTRY_FEE 7 (started alice 0 initState)
    = Revert AlreadyActive /\
  startGame alice 5 7 initState = Revert WrongFee /\
  step (started alice 0 initState) (mkTx alice (CallStartGame 5 7))
    = started alice 0 initState /\
  getGameState (step initState (txStart alice)) alice = (1, 0, 0, 0, true).
Proof.
  destruct (C3_startGame (started alice 0 initState) alice ENTRY_FEE 7)
    as (Hactive & _ & _ & _).
  destruct (C3_startGame (started alice 0 initState) alice 5 7)
    as (_ & _ & Hsame & _).
  destruct (C3_startGame initState alice 5 7) as (_ & Hfee & _ & _).
  destruct (C3_startGame initState alice ENTRY_FEE 0) as (_ & _ & _ & Hnew).
  split; [|split; [|split]].
  - apply Hactive. by vm_compute.
  - apply Hfee; by vm_compute.
  - apply Hsame. left. by vm_compute.
  - destruct Hnew as (s' & Hrun & _ & Hstate); [by vm_compute | done |].
    unfold step, exec, txStart; simpl. by rewrite Hrun.
Defined.

(** ** The end of a game *)

Lemma collectPoints_Ok p s s' :
  collectPoints p s = Ok s' ->
  isActive (game_of s p) = true /\ 0 < pumpCount (game_of s p) /\
  s' = if currentRound (game_of s p) <? MAX_ROUNDS
       then banked_next p s else banked_last p s.
Proof.
  rewrite collectPoints_cases; simpl.
  destruct (isActive _); [|done].
  destruct (0 <? _) eqn:Hc; [|done].
  destruct (_ <=? MAX_UINT256); [|done]. simpl.
  apply N.ltb_lt in Hc.
  destruct (_ <? MAX_ROUNDS); by intros [= <-].
Qed.

Lemma no_game_no_moves p s :
  isActive (game_of s p) = false ->
  pumpBalloon p s = Revert NoActiveGame /\
  collectPoints p s = Revert NoActiveGame.
Proof.
  intros Ha. rewrite pumpBalloon_cases, collectPoints_cases; simpl.
  by rewrite Ha.
Qed.

(** C4. The bank that goes through in round 5 leaves the game inactive.
    From there on, as long as the player does not call [startGame],
    whatever else is sent, the game stays inactive and every pump and
    every bank of the player reverts with NoActiveGame.  In any state,
    the only transaction that turns an inactive game into an active one
    is a [startGame] of that player with the entry fee. *)
Theorem C4_game_over s p s' :
  collectPoints p s = Ok s' ->
  currentRound (game_of s p) = MAX_ROUNDS ->
  isActive (game_of s' p) = false /\
  (forall txs, no_restart p txs = true ->
     isActive (game_of (run txs s') p) = false /\
     pumpBalloon p (run txs s') = Revert NoActiveGame /\
     collectPoints p (run txs s') = Revert NoActiveGame /\
     step (run txs s') (txPump p) = run txs s' /\
     step (run txs s') (txBank p) = run txs s') /\
  (forall s1 tx,
     isActive (game_of s1 p) = false ->
     isActive (game_of (step s1 tx) p) = true ->
     exists timestamp, tx = mkTx p (CallStartGame ENTRY_FEE timestamp)).
Proof.
  intros Hbank Hround.
  apply collectPoints_Ok in Hbank as (Ha & Hpumps & ->).
  rewrite Hround, N.ltb_irrefl.
  assert (isActive (game_of (banked_last p s) p) = false) as Hover
    by (by rewrite game_of_banked_last).
  split; [done|]. split.
  - intros txs Hno.
    destruct (inactive_stays p txs _ Hno Hover) as [Hsame _].
    assert (isActive (game_of (run txs (banked_last p s)) p) = false)
      as Hstill by (by rewrite Hsame).
    destruct (no_game_no_moves p _ Hstill) as [Hpump Hcollect].
    repeat split; try done.
    + by apply step_revert with (e := NoActiveGame).
    + by apply step_revert with (e := NoActiveGame).
  - intros s1 tx Hoff Hon.
    game_cases p s1 tx; simpl in *; try congruence.
    symmetry in Hc. apply performed_Some in Hc as (Hp & Hcall & _).
    exists timestamp. destruct tx as [q c]; simpl in *. congruence.
Qed.

Lemma C4_game_over_witness :
  isActive (game_of (banked_last alice round5) alice) = false /\
  pumpBalloon alice (run [txStart bob; txBank alice] (banked_last alice round5))
    = Revert NoActiveGame /\
  collectPoints alice
    (run [txStart bob; txBank alice] (banked_last alice round5))
    = Revert NoActiveGame /\
  exists timestamp, txStart alice = mkTx alice (CallStartGame ENTRY_FEE timestamp).
Proof.
  destruct (C4_game_over round5 alice (banked_last alice round5))
    as (Hover & Hstays & Honly); [by vm_compute | by vm_compute |].
  destruct (Hstays [txStart bob; txBank alice])
    as (_ & Hpump & Hbank & _); [by vm_compute|].
  split; [exact Hover|]. split; [exact Hpump|]. split; [exact Hbank|].
  apply (Honly (banked_last alice round5) (txStart alice)); by vm_compute.
Defined.

(** ** Round boundaries *)


Lemma collectPoints_next_round p s s' :
  collectPoints p s = Ok s' ->
  currentRound (game_of s p) < MAX_ROUNDS ->
  game_of s' p =
  mkGameState (currentRound (game_of s p) + 1) 0 0
    (totalScore (game_of s p) + pendingPoints (game_of s p)) true.
Proof.
  intros Hbank Hround. apply collectPoints_Ok in Hbank as (Ha & Hpumps & ->).
  apply N.ltb_lt in Hround. by rewrite Hround, game_of_banked_next.
Qed.




(** ** The round counter *)

Lemma round_after_run p txs : forall s,
  no_restart p txs = true ->
  currentRound (game_of s p) <= currentRound (game_of (run txs s) p).
Proof.
  induction txs as [|tx txs IH]; intros s Hno; [done|].
  apply no_restart_cons in Hno as [Hstart Hno].
  rewrite run_cons. etrans; [|apply (IH _ Hno)].
  game_cases p s tx; simpl; try lia.
  by destruct (Hstart value timestamp s).
Qed.

(** C6.  In every reachable state the round of an active game lies
    between 1 and 5, and no transaction sent while the game is active
    lowers it.  A transaction leaves a player's round as it is, or is
    that player's bank and adds one, or is that player's [startGame] on
    an inactive game and sets it to 1: the round never decreases over a
    run without such a restart.  The bank that goes through in round 5
    makes the game inactive. *)
Theorem C6_round_progress s tx p :
  reachable s ->
  (isActive (game_of s p) = true ->
   1 <= currentRound (game_of s p) /\
   currentRound (game_of s p) <= MAX_ROUNDS) /\
  (currentRound (game_of (step s tx) p) = currentRound (game_of s p) \/
   (tx = txBank p /\
    currentRound (game_of (step s tx) p) = currentRound (game_of s p) + 1) \/
   ((exists timestamp, tx = mkTx p (CallStartGame ENTRY_FEE timestamp)) /\
    isActive (game_of s p) = false /\
    currentRound (game_of (step s tx) p) = 1)) /\
  (forall txs, no_restart p txs = true ->
     currentRound (game_of s p) <= currentRound (game_of (run txs s) p)) /\
  (performed p tx s = Some CallCollectPoints ->
   currentRound (game_of s p) = MAX_ROUNDS ->
   isActive (game_of (step s tx) p) = false) /\
  (isActive (game_of s p) = true ->
   currentRound (game_of s p) <= currentRound (game_of (step s tx) p)).
Proof.
  intros Hs. destruct (reachable_game_ok s p Hs) as [Hr Har _ _ _ _].
  split; [by auto|]. split; [|split; [|split]].
  - game_cases p s tx; simpl; auto.
    + right; right. symmetry in Hc.
      apply performed_Some in Hc as (Hp & Hcall & _).
      destruct tx as [q c']; simpl in *. subst. eauto.
    + right; left. symmetry in Hc.
      apply performed_Some in Hc as (Hp & Hcall & _).
      destruct tx as [q c']; simpl in *. by subst.
  - intros txs Hno. by apply round_after_run.
  - intros Hbank Hround.
    game_cases p s tx; simpl; try done.
    unfold MAX_ROUNDS in *. lia.
  - intros Ha. game_cases p s tx; simpl; try lia. congruence.
Qed.

Lemma C6_round_progress_witness :
  (1 <= currentRound (game_of round5 alice) /\
   currentRound (game_of round5 alice) <= MAX_ROUNDS) /\
  currentRound (game_of round5 alice)
    <= currentRound (game_of (run [txPump alice; txBank alice; txStart bob]
                                round5) alice) /\
  isActive (game_of (step round5 (txBank alice)) alice) = false /\
  currentRound (game_of round5 alice)
    <= currentRound (game_of (step round5 (txBank alice)) alice).
Proof.
  destruct (C6_round_progress round5 (txBank alice) alice)
    as (Hbounds & _ & Hmono & Hlast & Hactive).
  { by exists (txStart alice :: rounds alice 4 ++ [txPump alice]). }
  split; [|split; [|split]].
  - apply Hbounds. by vm_compute.
  - apply Hmono. by vm_compute.
  - apply Hlast; by vm_compute.
  - apply Hactive. by vm_compute.
Defined.

(** ** The leaderboard order *)

(** C7, the claim as stated, fails: the exchange that brings Carol to the
    front moves Alice behind Bob, who has the same score and registered
    after her. *)
Lemma C7_tie_order_counterexample :
  ~ (forall s, reachable s -> ties_in_registration_order s).
Proof.
  intros Hties.
  assert (reachable three_games) as Hreach by (by eexists).
  assert (getLeaderboard three_games = Ok ([carol; bob; alice], [70; 50; 50]))
    as Hboard by (vm_compute; reflexivity).
  assert (players three_games = [alice; bob; carol]) as Hplayers
    by (vm_compute; reflexivity).
  destruct (Hties three_games Hreach _ _ 1%nat 2%nat bob alice 50 Hboard)
    as (a & b & Hab & Ha & Hb); [lia | reflexivity..|].
  rewrite Hplayers in Ha, Hb. clear Hties Hreach Hboard Hplayers.
  destruct a as [|[|[|a]]]; destruct b as [|[|[|b]]];
    try lia; discriminate.
Qed.

(** C7, amended.  [getLeaderboard] always returns: with [n] registered
    players it yields [min n 10] players and as many scores, each pair a
    registered player with that player's high score and the pairs left
    out making up the rest of the registry; the returned scores are in
    descending order and no pair left out has a higher score than a
    returned one.  Nothing is promised on the order of equal scores. *)
Theorem C7_leaderboard_top10 s :
  exists topPlayers topScores rest,
    getLeaderboard s = Ok (topPlayers, topScores) /\
    length topPlayers = Nat.min (length (players s)) 10 /\
    length topScores = Nat.min (length (players s)) 10 /\
    zip topPlayers topScores ++ rest ≡ₚ entries s /\
    StronglySorted descending topScores /\
    (forall x e, x ∈ topScores -> e ∈ rest -> e.2 <= x).
Proof.
  destruct (getLeaderboard_result s)
    as (tp & ts & Hrun & Htp & Hts & Hperm & Hpre).
  set (k := Nat.min (length (players s)) 10) in *.
  exists (take k tp), (take k ts), (drop k (zip tp ts)).
  split; [done|]. split; [rewrite length_take; lia|].
  split; [rewrite length_take; lia|]. split; [|split].
  - by rewrite <- zip_with_take, take_drop.
  - apply pointwise_descending. intros a b x y Hab Hx Hy.
    apply lookup_take_Some in Hx as [Hx Ha], Hy as [Hy Hb].
    apply (Hpre a b); auto.
    apply lookup_lt_Some in Hx. lia.
  - intros x [q y] Hx He; simpl.
    apply elem_of_take in Hx as (a & Hx & Ha).
    apply list_elem_of_lookup in He as [b Hb].
    rewrite lookup_drop in Hb.
    apply lookup_zip_with_Some in Hb as (q' & y' & [= <- <-] & _ & Hy).
    apply (Hpre a (k + b)%nat); auto; [|lia].
    apply lookup_lt_Some in Hx. lia.
Qed.

(** ** Banking with nothing pumped *)

(** C8, the claim as stated, fails for a player without a game: the
    guard on [isActive] comes first and the revert is NoActiveGame. *)
Lemma C8_no_game_counterexample : ~ zero_pumps_is_NothingToBank.
Proof.
  intros Hclaim.
  specialize (Hclaim initState alice reachable_init eq_refl).
  by vm_compute in Hclaim.
Qed.

(** C8, amended.  With [pumpCount = 0] the bank always reverts and
    leaves the storage as it was: with NothingToBank when the game is
    active, with NoActiveGame when it is not.  In particular the bank
    sent right after a [startGame] that went through, or right after a
    bank that opened a new round, reverts with NothingToBank. *)
Theorem C8_bank_needs_a_pump s p :
  (pumpCount (game_of s p) = 0 ->
   collectPoints p s =
     Revert (if isActive (game_of s p) then NothingToBank else NoActiveGame) /\
   step s (txBank p) = s) /\
  (forall value timestamp s',
     startGame p value timestamp s = Ok s' ->
     collectPoints p s' = Revert NothingToBank) /\
  (forall s',
     collectPoints p s = Ok s' ->
     currentRound (game_of s p) < MAX_ROUNDS ->
     collectPoints p s' = Revert NothingToBank).
Proof.
  assert (forall s0, pumpCount (game_of s0 p) = 0 ->
            collectPoints p s0 =
            Revert (if isActive (game_of s0 p)
                    then NothingToBank else NoActiveGame)) as Hzero.
  { intros s0 H0. rewrite collectPoints_cases; simpl. rewrite H0.
    by destruct (isActive _). }
  split; [|split].
  - intros H0. split; [by apply Hzero|].
    eapply step_revert. unfold exec; simpl. by apply Hzero.
  - intros value timestamp s' Hstart. rewrite startGame_cases in Hstart.
    destruct (isActive (game_of s p)); [done|].
    destruct (value =? ENTRY_FEE); [|done]. injection Hstart as <-.
    rewrite Hzero; by rewrite game_of_started.
  - intros s' Hbank Hround.
    pose proof (collectPoints_next_round p s s' Hbank Hround) as Hg.
    rewrite Hzero; by rewrite Hg.
Qed.

Lemma C8_bank_needs_a_pump_witness :
  step initState (txBank alice) = initState /\
  collectPoints alice (started alice 0 initState) = Revert NothingToBank /\
  collectPoints alice
    (banked_next alice (pumped alice (started alice 0 initState)))
    = Revert NothingToBank.
Proof.
  destruct (C8_bank_needs_a_pump initState alice) as (Hzero & Hstart & _).
  destruct (C8_bank_needs_a_pump (pumped alice (started alice 0 initState))
              alice) as (_ & _ & Hnext).
  split; [|split].
  - apply Hzero. by vm_compute.
  - apply (Hstart ENTRY_FEE 0). by vm_compute.
  - apply Hnext; by vm_compute.
Defined.

(** ** High scores *)

Lemma highScore_after_run p txs : forall s,
  highScore_of s p <= highScore_of (run txs s) p.
Proof.
  induction txs as [|tx txs IH]; intros s; [done|].
  rewrite run_cons. etrans; [|apply IH].
  game_cases p s tx; try lia.
  destruct (_ <? _) eqn:Hlt; [apply N.ltb_lt in Hlt|]; lia.
Qed.

(** C9. No transaction lowers a player's stored high score, so it never
    decreases over any run, repeated games included.  A transaction that
    changes it is a bank of that player that completes the game, and the
    new value is the completed game's [totalScore], strictly above the old
    value; a completing bank whose [totalScore] is not above the stored
    value leaves it as it is. *)
Theorem C9_highScore_monotone s tx p :
  highScore_of s p <= highScore_of (step s tx) p /\
  (forall txs, highScore_of s p <= highScore_of (run txs s) p) /\
  (highScore_of (step s tx) p <> highScore_of s p ->
   tx = txBank p /\
   isActive (game_of s p) = true /\
   isActive (game_of (step s tx) p) = false /\
   highScore_of (step s tx) p = totalScore (game_of (step s tx) p) /\
   highScore_of s p < totalScore (game_of (step s tx) p)) /\
  (tx = txBank p -> isActive (game_of s p) = true ->
   isActive (game_of (step s tx) p) = false ->
   highScore_of (step s tx) p =
     if highScore_of s p <? totalScore (game_of (step s tx) p)
     then totalScore (game_of (step s tx) p) else highScore_of s p).
Proof.
  split; [apply (highScore_after_run p [tx])|].
  split; [intros txs; apply highScore_after_run|]. split.
  - intros Hchanged.
    game_cases p s tx; simpl in *; try done.
    symmetry in Hc. apply performed_Some in Hc as (Hp & Hcall & _).
    destruct (_ <? _) eqn:Hlt; [|done]. apply N.ltb_lt in Hlt.
    destruct tx as [q c']; simpl in *. by subst.
  - intros -> Ha Hover.
    game_cases p s (txBank p); simpl in *; try congruence.
Qed.

Lemma C9_highScore_monotone_witness :
  highScore_of round5 alice
    <= highScore_of (run (txBank alice :: game alice 0) round5) alice /\
  highScore_of (step round5 (txBank alice)) alice = 50 /\
  highScore_of (step (run (txBank alice :: txStart alice :: rounds alice 4
                             ++ [txPump alice]) round5) (txBank alice)) alice
    = 50.
Proof.
  destruct (C9_highScore_monotone round5 (txBank alice) alice)
    as (_ & Hrun & Hnew & _).
  destruct (C9_highScore_monotone
              (run (txBank alice :: txStart alice :: rounds alice 4
                      ++ [txPump alice]) round5) (txBank alice) alice)
    as (_ & _ & _ & Hkeep).
  split; [apply Hrun|]. split.
  - destruct Hnew as (_ & _ & _ & -> & _); by vm_compute.
  - rewrite Hkeep; by vm_compute.
Defined.

(** ** Pending points *)

(** C10. In every reachable state with an active game, [pendingPoints]
    is [10 * (2^pumpCount - 1)] with [pumpCount] at most 2: it is 0, 10
    or 30 and never exceeds 30. *)
Theorem C10_pending_from_pumps s p :
  reachable s ->
  isActive (game_of s p) = true ->
  pendingPoints (game_of s p) = 10 * (2 ^ pumpCount (game_of s p) - 1) /\
  pumpCount (game_of s p) <= 2 /\
  (pendingPoints (game_of s p) = 0 \/ pendingPoints (game_of s p) = 10 \/
   pendingPoints (game_of s p) = 30) /\
  pendingPoints (game_of s p) <= 30.
Proof.
  intros Hs _. destruct (reachable_game_ok s p Hs) as [_ _ Hp Hpp _ _].
  split; [done|]. split; [done|].
  destruct (pending_cases _ _ Hp Hpp) as [[_ ->] | [[_ ->] | [_ ->]]];
    split; auto; lia.
Qed.

Lemma C10_pending_from_pumps_witness :
  pendingPoints (game_of (run [txStart alice; txPump alice; txPump alice]
                            initState) alice) <= 30.
Proof.
  apply (C10_pending_from_pumps
           (run [txStart alice; txPump alice; txPump alice] initState) alice).
  - by exists [txStart alice; txPump alice; txPump alice].
  - by vm_compute.
Defined.

(** * More of the contract *)

(** ** One player at a time *)

Lemma step_has_shape s tx : step_shape s tx (step s tx).
Proof.
  destruct tx as [p c]. unfold step.
  destruct (exec (mkTx p c) s) as [s' | e] eqn:Hrun;
    [|apply shape_revert; by rewrite Hrun].
  assert (succeeds (exec (mkTx p c) s) = true) as Hok by (by rewrite Hrun).
  unfold exec in Hrun; simpl in Hrun. destruct c.
  - rewrite startGame_cases in Hrun.
    destruct (isActive (game_of s p)) eqn:Ha; [done|].
    destruct (N.eqb_spec value ENTRY_FEE) as [Hv | Hv]; [|done].
    injection Hrun as <-. by eapply shape_start.
  - apply pumpBalloon_Ok in Hrun as (-> & Ha & _ & Hc). by apply shape_pump.
  - apply collectPoints_Ok in Hrun as (Ha & Hc & ->).
    destruct (N.ltb_spec (currentRound (game_of s p)) MAX_ROUNDS).
    + by apply shape_bank_next.
    + by apply shape_bank_last.
Qed.

Lemma step_player s tx p :
  (game_of (step s tx) p, highScore_of (step s tx) p) =
  if decide (sender tx = p)
  then player_step (call tx) (game_of s p) (highScore_of s p)
  else (game_of s p, highScore_of s p).
Proof.
  destruct (decide (sender tx = p)) as [<- | Hne].
  2: { by destruct (step_other p s tx Hne) as [-> ->]. }
  destruct tx as [p c]; simpl. unfold step, exec; simpl. destruct c; simpl.
  - rewrite startGame_cases.
    destruct (isActive (game_of s p)); simpl; [done|].
    destruct (value =? ENTRY_FEE); [|done].
    by rewrite game_of_started, highScore_of_started.
  - rewrite pumpBalloon_cases; simpl.
    destruct (isActive (game_of s p)); simpl; [|done].
    destruct (_ <=? MAX_ROUNDS); simpl; [|done].
    destruct (_ <? 2); simpl; [|done].
    destruct (_ <=? MAX_UINT256); simpl; [|done].
    by rewrite game_of_pumped, highScore_of_pumped.
  - rewrite collectPoints_cases; simpl.
    destruct (isActive (game_of s p)); simpl; [|done].
    destruct (0 <? _); simpl; [|done].
    destruct (_ <=? MAX_UINT256); simpl; [|done].
    destruct (_ <? MAX_ROUNDS).
    + by rewrite game_of_banked_next, highScore_of_banked_next.
    + by rewrite game_of_banked_last, highScore_of_banked_last.
Qed.

Lemma run_player p txs : forall s,
  (game_of (run txs s) p, highScore_of (run txs s) p) =
  play (calls_of p txs) (game_of s p, highScore_of s p).
Proof.
  induction txs as [|tx txs IH]; intros s; [done|].
  rewrite run_cons, IH, step_player. unfold calls_of.
  rewrite filter_cons. by destruct (decide (sender tx = p)).
Qed.

(** X1. What a run does to a player's game and high score depends only on
    what they were before and on the calls that player sends, in order:
    two runs that agree on those leave the same game and the same high
    score, whatever the other senders do. *)
Theorem X1_players_do_not_interfere p s1 s2 txs1 txs2 :
  game_of s1 p = game_of s2 p ->
  highScore_of s1 p = highScore_of s2 p ->
  calls_of p txs1 = calls_of p txs2 ->
  game_of (run txs1 s1) p = game_of (run txs2 s2) p /\
  highScore_of (run txs1 s1) p = highScore_of (run txs2 s2) p.
Proof.
  intros Hg Hh Hcalls.
  pose proof (run_player p txs1 s1) as H1.
  pose proof (run_player p txs2 s2) as H2.
  rewrite Hg, Hh, Hcalls, <- H2 in H1. by injection H1.
Qed.

Lemma X1_players_do_not_interfere_witness :
  game_of (run (game alice 1) initState) alice =
  game_of (run (txStart alice :: txBank bob :: txPump alice ::
                  game carol 0 ++ rounds alice 5)
             (run (game bob 0) initState)) alice.
Proof.
  apply (X1_players_do_not_interfere alice initState
           (run (game bob 0) initState)); by vm_compute.
Defined.

(** ** The life of a game *)

Lemma phase_step g h c g' h' :
  game_ok g h -> phase g h -> game_step g h c g' h' -> phase g' h'.
Proof.
  intros [Hr Har Hp Hpp Ht Hh] Hphase Hstep.
  pose proof (pending_cases _ _ Hp Hpp) as Hcases.
  unfold MAX_ROUNDS in *.
  destruct Hstep as [ | v t Ha Hv | Ha Hr' Hc Ho | Ha Hc Hr' Ho
                     | Ha Hc Hr' Ho ]; unfold MAX_ROUNDS in *.
  - done.
  - destruct Hphase as [-> -> | k Ha' | Ha' _ _ _ Hfin _]; [|congruence|].
    + apply (phase_playing _ _ 0); simpl; unfold MAX_ROUNDS; auto; lia.
    + apply (phase_playing _ _ 0); simpl; unfold MAX_ROUNDS; auto; lia.
  - destruct Hphase as [-> _ | k _ H1 H5 Hk Htot Hhigh | Ha' ];
      [done | | congruence].
    by apply (phase_playing _ _ k).
  - destruct Hphase as [-> _ | k _ H1 H5 Hk Htot Hhigh | Ha' ];
      [done | | congruence].
    destruct Hcases as [[Hpc Hpe] | [[Hpc Hpe] | [Hpc Hpe]]]; [lia | |].
    + apply (phase_playing _ _ k); simpl; unfold MAX_ROUNDS; auto; lia.
    + apply (phase_playing _ _ (k + 1)); simpl; unfold MAX_ROUNDS; auto; lia.
  - destruct Hphase as [-> _ | k _ H1 H5 Hk Htot Hhigh | Ha' ];
      [done | | congruence].
    assert (final_score (totalScore g + pendingPoints g)) as Hfinal.
    { destruct Hcases as [[Hpc Hpe] | [[Hpc Hpe] | [Hpc Hpe]]]; [lia | |].
      - exists k. lia.
      - exists (k + 1). lia. }
    apply phase_finished; simpl; unfold MAX_ROUNDS; auto; try lia.
    + destruct (_ <? _) eqn:Hlt; [done|].
      destruct Hhigh as [-> | Hhigh]; [|done].
      apply N.ltb_ge in Hlt. destruct Hfinal as (k' & _ & Hk'). lia.
    + destruct (_ <? _) eqn:Hlt; [lia|]. by apply N.ltb_ge in Hlt.
Qed.

Lemma reachable_phase s p :
  reachable s -> phase (game_of s p) (highScore_of s p).
Proof.
  intros Hs. induction Hs as [|s tx Hs IH] using reachable_ind.
  - by apply phase_never.
  - eapply phase_step; [by apply reachable_game_ok | exact IH |].
    apply step_game_step.
Qed.

(** X2. In every reachable state each stored game is in one of three
    phases.  Never started: the all-zero record, high score 0.  Being
    played: active, in a round [r] from 1 to 5, with
    [totalScore = 10 * (r - 1) + 20 * k] for some [k < r], so between
    [10 * (r - 1)] and [30 * (r - 1)].  Finished: inactive, round 5, at
    least one pump still recorded, a [totalScore] among 50, 70, ..., 150
    and a high score among those values that is at least the
    [totalScore]. *)
Theorem X2_game_phases s p :
  reachable s ->
  let g := game_of s p in
  let h := highScore_of s p in
  (g = zeroGame /\ h = 0) \/
  (isActive g = true /\
   1 <= currentRound g /\ currentRound g <= MAX_ROUNDS /\
   (exists k, k + 1 <= currentRound g /\
      totalScore g = 10 * (currentRound g - 1) + 20 * k) /\
   10 * (currentRound g - 1) <= totalScore g /\
   totalScore g <= 30 * (currentRound g - 1) /\
   (h = 0 \/ exists k, k <= 5 /\ h = 50 + 20 * k)) \/
  (isActive g = false /\ currentRound g = MAX_ROUNDS /\
   1 <= pumpCount g /\
   (exists k, k <= 5 /\ totalScore g = 50 + 20 * k) /\
   (exists k, k <= 5 /\ h = 50 + 20 * k) /\
   totalScore g <= h).
Proof.
  intros Hs g h. subst g h.
  destruct (reachable_phase s p Hs)
    as [Hzero Hh | k Ha H1 H5 Hk Htot Hhigh | Ha Hr Hpc Hfin Hhigh Hle].
  - by left.
  - right; left. repeat (split; [done|]).
    split; [by exists k|]. split; [lia|]. split; [lia|]. done.
  - right; right. done.
Qed.

Lemma X2_game_phases_witness :
  totalScore (game_of three_games carol) <= highScore_of three_games carol.
Proof.
  destruct (X2_game_phases three_games carol)
    as [[Hzero _] | [(Ha & _) | (_ & _ & _ & _ & _ & Hle)]].
  - by eexists.
  - exfalso. by vm_compute in Hzero.
  - exfalso. by vm_compute in Ha.
  - exact Hle.
Defined.

(** ** The registry of players *)

Lemma players_started p timestamp s :
  players (started p timestamp s) =
  if currentRound (game_of s p) =? 0 then players s ++ [p] else players s.
Proof. unfold started; simpl. by destruct (_ =? 0). Qed.

Lemma players_banked_last p s : players (banked_last p s) = players s.
Proof. unfold banked_last, _endGame; simpl. by destruct (_ <? _). Qed.

Lemma round_step_other s tx p :
  sender tx <> p ->
  currentRound (game_of (step s tx) p) = currentRound (game_of s p).
Proof. intros Hne. by destruct (step_other p s tx Hne) as [-> _]. Qed.

(** A transaction either leaves the registry and the set of addresses
    that have a game, or is the first [startGame] of its sender. *)
Lemma players_step s tx :
  reachable s ->
  (players (step s tx) = players s /\
   forall p, currentRound (game_of (step s tx) p) = 0 <->
             currentRound (game_of s p) = 0) \/
  (currentRound (game_of s (sender tx)) = 0 /\
   currentRound (game_of (step s tx) (sender tx)) = 1 /\
   players (step s tx) = players s ++ [sender tx]).
Proof.
  intros Hs.
  destruct (reachable_game_ok s (sender tx) Hs) as [_ Har _ _ _ _].
  assert (forall s', s' = step s tx ->
            (currentRound (game_of s' (sender tx)) = 0 <->
             currentRound (game_of s (sender tx)) = 0) ->
            forall p, currentRound (game_of s' p) = 0 <->
                      currentRound (game_of s p) = 0) as Hall.
  { intros s' -> Hown p. destruct (decide (sender tx = p)) as [<- | Hne];
      [done | by rewrite round_step_other]. }
  pose proof (step_has_shape s tx) as Hshape.
  remember (step s tx) as s' eqn:Hs'.
  destruct Hshape as [ | v t _ _ Ha _ | _ _ Ha _ | _ _ Ha _ _ | _ _ Ha _ _ ].
  - left. by split.
  - rewrite players_started, game_of_started.
    destruct (N.eqb_spec (currentRound (game_of s (sender tx))) 0)
      as [Hz | Hnz]; [by right|].
    left. split; [done|]. apply Hall; [done|].
    rewrite game_of_started; simpl. split; [done | by intros ?].
  - left. split; [done|]. apply Hall; [done|]. by rewrite game_of_pumped.
  - left. split; [done|]. apply Hall; [done|].
    rewrite game_of_banked_next; simpl. specialize (Har Ha). lia.
  - left. split; [apply players_banked_last|]. apply Hall; [done|].
    by rewrite game_of_banked_last.
Qed.

Lemma registry_step s tx :
  reachable s -> registry_ok s -> registry_ok (step s tx).
Proof.
  intros Hs [Hnodup Hin].
  destruct (players_step s tx Hs) as [[Hsame Hrounds] | (Hnew & Hone & Happ)].
  - split; [by rewrite Hsame|]. intros p. by rewrite Hsame, Hin, Hrounds.
  - split.
    + rewrite Happ. apply NoDup_app. split; [done|]. split.
      * intros x Hx ->%list_elem_of_singleton. by apply Hin in Hx.
      * apply NoDup_singleton.
    + intros p. rewrite Happ, elem_of_app, list_elem_of_singleton, Hin.
      destruct (decide (sender tx = p)) as [<- | Hne].
      * rewrite Hone. split; [done | by right].
      * rewrite round_step_other by done. split; [|by left].
        intros [? | ?]; congruence.
Qed.

Lemma reachable_registry s : reachable s -> registry_ok s.
Proof.
  intros Hs. induction Hs as [|s tx Hs IH] using reachable_ind.
  - split; [apply NoDup_nil_2|]. intros p. rewrite game_of_init; simpl.
    split; [by intros ?%elem_of_nil | done].
  - by apply registry_step.
Qed.

Lemma players_grow txs : forall s,
  reachable s -> players s `prefix_of` players (run txs s).
Proof.
  induction txs as [|tx txs IH]; intros s Hs; [done|].
  rewrite run_cons. etrans; [|apply IH, reachable_step, Hs].
  destruct (players_step s tx Hs) as [[-> _] | (_ & _ & ->)];
    [done | by apply prefix_app_r].
Qed.

(** X3. In every reachable state the registry [players] lists no address
    twice and lists exactly the addresses that have started a game (those
    whose stored round is not 0); it only ever grows at its end. *)
Theorem X3_registry s :
  reachable s ->
  NoDup (players s) /\
  (forall p, p ∈ players s <-> currentRound (game_of s p) <> 0) /\
  (forall txs, players s `prefix_of` players (run txs s)).
Proof.
  intros Hs. destruct (reachable_registry s Hs) as [Hnodup Hin].
  split; [done|]. split; [done|]. intros txs. by apply players_grow.
Qed.

Lemma X3_registry_witness :
  NoDup (players three_games) /\
  players three_games `prefix_of`
    players (run (game 4 0 ++ game alice 2) three_games).
Proof.
  destruct (X3_registry three_games) as (Hnodup & _ & Hgrow);
    [by eexists|].
  split; [exact Hnodup | apply Hgrow].
Defined.

(** X4. In every reachable state [getGameState] returns the all-zero
    tuple for exactly the addresses outside the registry, and
    [getHighScore] returns 0 for them; for a registered address the round
    it returns is between 1 and 5. *)
Theorem X4_views s p :
  reachable s ->
  (getGameState s p = (0, 0, 0, 0, false) <-> p ∉ players s) /\
  (p ∉ players s -> getHighScore s p = 0) /\
  (p ∈ players s ->
   1 <= (getGameState s p).1.1.1.1 /\
   (getGameState s p).1.1.1.1 <= MAX_ROUNDS).
Proof.
  intros Hs. destruct (reachable_registry s Hs) as [_ Hin].
  unfold getGameState, getHighScore; simpl.
  destruct (reachable_phase s p Hs)
    as [Hzero Hh | k Ha H1 H5 _ _ _ | Ha Hr _ _ _ _].
  - rewrite Hin, Hzero, Hh; simpl. split; [|split]; try done.
    split; [by intros _ ? | done].
  - split; [|split].
    + rewrite Hin. split; [|intros Hout; exfalso; apply Hout; lia].
      intros [= Hr _]. lia.
    + rewrite Hin. intros Hout. exfalso. apply Hout. lia.
    + done.
  - unfold MAX_ROUNDS in *. split; [|split].
    + rewrite Hin. split; [|intros Hout; exfalso; apply Hout; lia].
      intros [= Hr' _]. lia.
    + rewrite Hin. intros Hout. exfalso. apply Hout. lia.
    + lia.
Qed.

Lemma X4_views_witness :
  getGameState three_games 4 = (0, 0, 0, 0, false) /\
  getHighScore three_games 4 = 0 /\
  1 <= (getGameState three_games bob).1.1.1.1.
Proof.
  assert (4 ∉ players three_games) as Hout.
  { assert (players three_games = [alice; bob; carol]) as ->
      by (vm_compute; reflexivity).
    unfold alice, bob, carol.
    repeat (apply not_elem_of_cons; split; [discriminate|]).
    apply not_elem_of_nil. }
  assert (bob ∈ players three_games) as Hin.
  { assert (players three_games = [alice; bob; carol]) as ->
      by (vm_compute; reflexivity).
    apply list_elem_of_further, list_elem_of_here. }
  destruct (X4_views three_games 4) as (Hzero & Hhigh & _); [by eexists|].
  destruct (X4_views three_games bob) as (_ & _ & Hround); [by eexists|].
  split; [|split].
  - by apply Hzero.
  - by apply Hhigh.
  - by apply Hround.
Defined.

(** ** The event log *)

Lemma events_started p timestamp s :
  events (started p timestamp s) = events s ++ [GameStarted p timestamp].
Proof. unfold started; simpl. by destruct (_ =? 0). Qed.

Lemma events_pumped p s :
  events (pumped p s) =
  events s ++ [BalloonPumped p (currentRound (game_of s p))
                 (pumpCount (game_of s p) + 1)
                 (10 * 2 ^ pumpCount (game_of s p))].
Proof. reflexivity. Qed.

Lemma events_banked_next p s :
  events (banked_next p s) =
  events s ++ [PointsCollected p (currentRound (game_of s p))
                 (totalScore (game_of s p) + pendingPoints (game_of s p))].
Proof. reflexivity. Qed.

Lemma events_banked_last p s :
  events (banked_last p s) =
  events s ++ [PointsCollected p (currentRound (game_of s p))
                 (totalScore (game_of s p) + pendingPoints (game_of s p));
               GameCompleted p
                 (totalScore (game_of s p) + pendingPoints (game_of s p))].
Proof.
  unfold banked_last, _endGame; simpl.
  destruct (_ <? _); simpl; autorewrite with storage; simpl;
    by rewrite <- app_assoc.
Qed.

(** What one transaction appends to the log, read for player [p]. *)
Lemma log_step s tx p :
  exists new,
    events (step s tx) = events s ++ new /\
    Forall (fun e => is_popped e = false) new /\
    match performed p tx s with
    | Some (CallStartGame _ _) =>
        completed_scores p new = [] /\ count_started p new = 1%nat
    | Some CallCollectPoints =>
        count_started p new = 0%nat /\
        completed_scores p new =
          if isActive (game_of (step s tx) p) then []
          else [totalScore (game_of (step s tx) p)]
    | _ => completed_scores p new = [] /\ count_started p new = 0%nat
    end.
Proof.
  pose proof (step_has_shape s tx) as Hshape.
  unfold performed.
  remember (step s tx) as s' eqn:Hs'.
  destruct Hshape as [ Hko | v t Hok Hcall Ha _ | Hok Hcall Ha _
                     | Hok Hcall Ha _ _ | Hok Hcall Ha _ _ ];
    [ exists []; rewrite app_nil_r, Hko;
      split; [done|]; split; [done|]; by destruct (decide _) | .. ];
    rewrite Hok, Hcall;
    (destruct (decide (sender tx = p)) as [<- | Hne];
     [ | apply N.eqb_neq in Hne ]).
  - eexists. rewrite events_started. split; [done|].
    split; [by repeat constructor|].
    unfold count_started, completed_scores; simpl.
    rewrite filter_cons, decide_True; [done|]. simpl. apply N.eqb_refl.
  - eexists. rewrite events_started. split; [done|].
    split; [by repeat constructor|].
    unfold count_started, completed_scores; simpl.
    rewrite filter_cons, decide_False; [done|]. simpl. by rewrite Hne.
  - eexists. rewrite events_pumped. split; [done|].
    split; [by repeat constructor|]. done.
  - eexists. rewrite events_pumped. split; [done|].
    split; [by repeat constructor|]. done.
  - eexists. rewrite events_banked_next. split; [done|].
    split; [by repeat constructor|].
    by rewrite game_of_banked_next.
  - eexists. rewrite events_banked_next. split; [done|].
    split; [by repeat constructor|]. done.
  - eexists. rewrite events_banked_last. split; [done|].
    split; [by repeat constructor|].
    rewrite game_of_banked_last; simpl.
    unfold completed_scores; simpl. by rewrite N.eqb_refl.
  - eexists. rewrite events_banked_last. split; [done|].
    split; [by repeat constructor|].
    unfold completed_scores; simpl. by rewrite Hne.
Qed.

Lemma maxN_app l x : maxN (l ++ [x]) = N.max (maxN l) x.
Proof.
  unfold maxN. induction l as [|y l IH]; simpl; [lia|].
  rewrite IH. lia.
Qed.

Lemma maxN_upper l x : x ∈ l -> x <= maxN l.
Proof.
  unfold maxN. induction l as [|y l IH]; intros Hx.
  - by apply elem_of_nil in Hx.
  - apply elem_of_cons in Hx as [-> | Hx]; simpl; [lia|].
    specialize (IH Hx). lia.
Qed.

Lemma maxN_attained l : maxN l = 0 \/ maxN l ∈ l.
Proof.
  unfold maxN. induction l as [|y l IH]; simpl; [by left|].
  destruct (N.max_spec y (foldr N.max 0 l)) as [[_ ->] | [_ ->]].
  - destruct IH as [IH | IH]; [by left|]. right. by apply elem_of_cons; right.
  - right. apply elem_of_cons. by left.
Qed.

Lemma highScore_is_max s p :
  reachable s ->
  highScore_of s p = maxN (completed_scores p (events s)).
Proof.
  intros Hs. induction Hs as [|s tx Hs IH] using reachable_ind; [done|].
  destruct (log_step s tx p) as (new & -> & _ & Hnew).
  unfold completed_scores in *. rewrite omap_app.
  game_cases p s tx; destruct Hnew as [Hnew1 Hnew2];
    rewrite ?Hnew1, ?Hnew2, ?app_nil_r; simpl; try done.
  rewrite maxN_app, <- IH.
  destruct (_ <? _) eqn:Hlt;
    [apply N.ltb_lt in Hlt | apply N.ltb_ge in Hlt]; lia.
Qed.

Lemma log_has_no_pop s :
  reachable s -> Forall (fun e => is_popped e = false) (events s).
Proof.
  intros Hs. induction Hs as [|s tx Hs IH] using reachable_ind; [done|].
  destruct (log_step s tx 0) as (new & -> & Hnew & _).
  by apply Forall_app.
Qed.

Lemma three_games_reachable : reachable three_games.
Proof. by eexists. Qed.

(** X5. In every reachable state a player's stored high score is the
    largest final score among that player's [GameCompleted] events: no
    logged final score is above it, and it is one of them unless it is
    0. *)
Theorem X5_highScore_is_best_logged s p :
  reachable s ->
  highScore_of s p = maxN (completed_scores p (events s)) /\
  (forall x, x ∈ completed_scores p (events s) -> x <= getHighScore s p) /\
  (getHighScore s p = 0 \/
   getHighScore s p ∈ completed_scores p (events s)).
Proof.
  intros Hs. pose proof (highScore_is_max s p Hs) as Hmax.
  unfold getHighScore. split; [done|]. split.
  - rewrite Hmax. intros x Hx. by apply maxN_upper.
  - rewrite Hmax. apply maxN_attained.
Qed.

Lemma X5_highScore_is_best_logged_witness :
  highScore_of (run (game alice 0) three_games) alice = 50 /\
  highScore_of (run (game alice 2) three_games) alice = 70.
Proof.
  destruct (X5_highScore_is_best_logged
              (run (game alice 0) three_games) alice) as (H1 & _);
    [apply reachable_run, three_games_reachable|].
  destruct (X5_highScore_is_best_logged
              (run (game alice 2) three_games) alice) as (H2 & _);
    [apply reachable_run, three_games_reachable|].
  split; [etrans; [exact H1|] | etrans; [exact H2|]];
    vm_compute; reflexivity.
Defined.

(** X6. In every reachable state the log holds, for each player, one
    [GameStarted] per [GameCompleted] and one more exactly when that
    player's game is active. *)
Theorem X6_log_counts_games s p :
  reachable s ->
  count_started p (events s) =
  (length (completed_scores p (events s))
   + if isActive (game_of s p) then 1 else 0)%nat.
Proof.
  intros Hs. induction Hs as [|s tx Hs IH] using reachable_ind; [done|].
  destruct (log_step s tx p) as (new & -> & _ & Hnew).
  unfold completed_scores, count_started in *.
  rewrite omap_app, filter_app, !length_app, IH.
  game_cases p s tx; destruct Hnew as [Hnew1 Hnew2];
    rewrite ?Hnew1, ?Hnew2; simpl; rewrite ?H; simpl; lia.
Qed.

Lemma X6_log_counts_games_witness :
  count_started bob (events (run [txStart bob; txPump bob] three_games))
  = 2%nat.
Proof.
  etrans;
    [apply (X6_log_counts_games (run [txStart bob; txPump bob] three_games)
              bob), reachable_run, three_games_reachable|].
  vm_compute. reflexivity.
Defined.

(** X7. No balloon ever pops: in every reachable state the log holds no
    [BalloonPopped] event, and [_checkBalloonPop] is false on the stored
    pump count of every player, which never reaches
    [MIN_PUMPS_BEFORE_POP]. *)
Theorem X7_no_balloon_pops s p :
  reachable s ->
  Forall (fun e => is_popped e = false) (events s) /\
  pumpCount (game_of s p) < MIN_PUMPS_BEFORE_POP /\
  _checkBalloonPop (pumpCount (game_of s p)) = false.
Proof.
  intros Hs. split; [by apply log_has_no_pop|].
  destruct (reachable_game_ok s p Hs) as [_ _ Hp _ _ _].
  unfold _checkBalloonPop, MIN_PUMPS_BEFORE_POP. split; [lia|].
  destruct (N.leb_spec 3 (pumpCount (game_of s p))); [lia | done].
Qed.

Lemma X7_no_balloon_pops_witness :
  _checkBalloonPop
    (pumpCount (game_of (run [txStart alice; txPump alice; txPump alice;
                              txPump alice] three_games) alice)) = false.
Proof.
  apply (X7_no_balloon_pops
           (run [txStart alice; txPump alice; txPump alice; txPump alice]
              three_games) alice).
  apply reachable_run, three_games_reachable.
Defined.

(** ** Playing a game to its end *)

Lemma player_step_pump_first r t h :
  r <= MAX_ROUNDS ->
  player_step CallPumpBalloon (mkGameState r 0 0 t true) h =
  (mkGameState r 1 10 t true, h).
Proof.
  intros Hr. apply N.leb_le in Hr. unfold player_step; simpl.
  by rewrite Hr.
Qed.

Lemma player_step_bank_next r pc pp t h :
  0 < pc -> r < MAX_ROUNDS -> t + pp <= MAX_UINT256 ->
  player_step CallCollectPoints (mkGameState r pc pp t true) h =
  (mkGameState (r + 1) 0 0 (t + pp) true, h).
Proof.
  intros Hpc Hr Ho. apply N.ltb_lt in Hpc, Hr. apply N.leb_le in Ho.
  unfold player_step; simpl. by rewrite Hpc, Hr, Ho.
Qed.

Lemma player_step_bank_last r pc pp t h :
  0 < pc -> MAX_ROUNDS <= r -> t + pp <= MAX_UINT256 ->
  player_step CallCollectPoints (mkGameState r pc pp t true) h =
  (mkGameState r pc pp (t + pp) false,
   if h <? t + pp then t + pp else h).
Proof.
  intros Hpc Hr Ho. apply N.ltb_lt in Hpc. apply N.ltb_ge in Hr.
  apply N.leb_le in Ho. unfold player_step; simpl. by rewrite Hpc, Hr, Ho.
Qed.

(** [n] rounds of one pump and a bank, from the start of round [6 - n],
    end the game with 10 more points per round. *)
Lemma play_rounds n : forall r t h,
  r + N.of_nat n = MAX_ROUNDS + 1 -> (1 <= n)%nat ->
  t + 10 * N.of_nat n <= MAX_UINT256 ->
  (play (concat (replicate n [CallPumpBalloon; CallCollectPoints]))
     (mkGameState r 0 0 t true, h)).1 =
  mkGameState MAX_ROUNDS 1 10 (t + 10 * N.of_nat n) false.
Proof.
  unfold MAX_ROUNDS.
  induction n as [|n IH]; intros r t h Hr Hn Ht; [lia|].
  cbn [replicate concat app]. unfold play. cbn [foldl fst snd].
  rewrite player_step_pump_first by (unfold MAX_ROUNDS; lia).
  cbn [fst snd].
  destruct n as [|n].
  - assert (r = 5) as -> by lia.
    rewrite player_step_bank_last
      by (unfold MAX_ROUNDS; lia).
    simpl. f_equal.
  - rewrite player_step_bank_next
      by (unfold MAX_ROUNDS; lia).
    cbn [fst snd]. fold (play (concat (replicate (S n)
                          [CallPumpBalloon; CallCollectPoints]))
                          (mkGameState (r + 1) 0 0 (t + 10) true, h)).
    rewrite IH by lia. f_equal. lia.
Qed.

Lemma play_cons c cs gh :
  play (c :: cs) gh = play cs (player_step c gh.1 gh.2).
Proof. reflexivity. Qed.

Lemma play_from_bank r pc pp t h :
  0 < pc -> 1 <= r -> r <= MAX_ROUNDS ->
  t + pp + 10 * (MAX_ROUNDS - r) <= MAX_UINT256 ->
  let g' :=
    (play (CallCollectPoints
           :: concat (replicate (N.to_nat (MAX_ROUNDS - r))
                        [CallPumpBalloon; CallCollectPoints]))
       (mkGameState r pc pp t true, h)).1 in
  isActive g' = false /\ currentRound g' = MAX_ROUNDS /\
  totalScore g' = t + pp + 10 * (MAX_ROUNDS - r).
Proof.
  unfold MAX_ROUNDS. intros Hpc H1 H5 Ho. rewrite play_cons. cbn [fst snd].
  destruct (decide (r = 5)) as [-> | Hne].
  - rewrite player_step_bank_last by (unfold MAX_ROUNDS; lia).
    change (N.to_nat (5 - 5)) with 0%nat. simpl. repeat split; lia.
  - rewrite player_step_bank_next by (unfold MAX_ROUNDS; lia).
    rewrite play_rounds by (unfold MAX_ROUNDS; lia).
    unfold MAX_ROUNDS; simpl. repeat split; lia.
Qed.

Lemma length_rounds_calls n :
  length (concat (replicate n [CallPumpBalloon; CallCollectPoints]))
  = (2 * n)%nat.
Proof. induction n as [|n IH]; simpl in *; lia. Qed.

(** X8. No reachable game is stuck.  With an active game, once the player
    has sent a pump if the current round has none, a bank, and a pump and
    a bank for every round left - at most 10 calls, with any traffic of
    other senders in between - the game is over in round 5, every one of
    those calls has counted, and the player can start a new game. *)
Theorem X8_game_can_be_finished s p txs timestamp :
  reachable s ->
  isActive (game_of s p) = true ->
  calls_of p txs = finishing_calls (game_of s p) ->
  isActive (game_of (run txs s) p) = false /\
  currentRound (game_of (run txs s) p) = MAX_ROUNDS /\
  totalScore (game_of (run txs s) p) =
    totalScore (game_of s p)
    + (if pumpCount (game_of s p) =? 0 then 10
       else pendingPoints (game_of s p))
    + 10 * (MAX_ROUNDS - currentRound (game_of s p)) /\
  (length (calls_of p txs) <= 10)%nat /\
  succeeds (startGame p ENTRY_FEE timestamp (run txs s)) = true.
Proof.
  intros Hs Ha Hcalls.
  pose proof (run_player p txs s) as Hrun. rewrite Hcalls in Hrun.
  destruct (reachable_game_ok s p Hs) as [Hr Har Hp Hpp Ht _].
  specialize (Har Ha). rewrite Ha in Ht.
  pose proof (pending_cases _ _ Hp Hpp) as Hcases.
  assert (isActive (game_of (run txs s) p) = false /\
          currentRound (game_of (run txs s) p) = MAX_ROUNDS /\
          totalScore (game_of (run txs s) p) =
            totalScore (game_of s p)
            + (if pumpCount (game_of s p) =? 0 then 10
               else pendingPoints (game_of s p))
            + 10 * (MAX_ROUNDS - currentRound (game_of s p))) as Hend.
  { replace (game_of (run txs s) p)
      with ((game_of (run txs s) p, highScore_of (run txs s) p).1) by done.
    rewrite Hrun. clear Hrun Hcalls. unfold finishing_calls.
    destruct (game_of s p) as [r pc pp t a]; simpl in *. subst a.
    unfold MAX_ROUNDS in *.
    destruct Hcases as [[-> ->] | [[-> ->] | [-> ->]]]; cbn -[play].
    - rewrite play_cons. cbn [fst snd].
      rewrite player_step_pump_first by done.
      apply play_from_bank; unfold MAX_ROUNDS, MAX_UINT256; lia.
    - apply play_from_bank; unfold MAX_ROUNDS, MAX_UINT256; lia.
    - apply play_from_bank; unfold MAX_ROUNDS, MAX_UINT256; lia. }
  destruct Hend as (Hover & Hround & Htotal).
  split; [done|]. split; [done|]. split; [done|]. split.
  - rewrite Hcalls. unfold finishing_calls.
    rewrite length_app, length_cons, length_rounds_calls.
    unfold MAX_ROUNDS in *.
    destruct (_ =? 0); simpl length; lia.
  - rewrite startGame_cases, Hover. by rewrite N.eqb_refl.
Qed.

Lemma X8_game_can_be_finished_witness :
  isActive
    (game_of (run [txBank alice; txStart bob; txPump alice; txPump bob;
                   txBank alice; txPump alice; txBank alice]
                (run [txStart alice; txPump alice; txBank alice;
                      txPump alice; txBank alice; txPump alice; txPump alice]
                   initState)) alice) = false.
Proof.
  apply (X8_game_can_be_finished
           (run [txStart alice; txPump alice; txBank alice;
                 txPump alice; txBank alice; txPump alice; txPump alice]
              initState) alice
           [txBank alice; txStart bob; txPump alice; txPump bob;
            txBank alice; txPump alice; txBank alice] 0).
  - by eexists.
  - by vm_compute.
  - by vm_compute.
Defined.

(** ** More on the leaderboard *)

Lemma entries_fst s : (entries s).*1 = players s.
Proof.
  unfold entries. rewrite <- list_fmap_compose.
  induction (players s) as [|p l IH]; [done|]. csimpl. by rewrite IH.
Qed.

(** X9. In every reachable state the leaderboard lists no player twice;
    every listed player is registered and is listed with the current high
    score; with at most 10 registered players every one of them is
    listed. *)
Theorem X9_leaderboard_lists_players s :
  reachable s ->
  exists topPlayers topScores,
    getLeaderboard s = Ok (topPlayers, topScores) /\
    NoDup topPlayers /\
    (forall i p x, topPlayers !! i = Some p -> topScores !! i = Some x ->
       p ∈ players s /\ x = getHighScore s p) /\
    ((length (players s) <= 10)%nat -> topPlayers ≡ₚ players s).
Proof.
  intros Hs. destruct (reachable_registry s Hs) as [Hnodup _].
  destruct (getLeaderboard_result s)
    as (tp & ts & Hrun & Htp & Hts & Hperm & _).
  assert (tp ≡ₚ players s) as Hall.
  { rewrite <- (fst_zip tp ts) by lia. rewrite Hperm. by rewrite entries_fst. }
  eexists _, _. split; [exact Hrun|]. split; [|split].
  - apply (sublist_NoDup _ tp); [by rewrite Hall | apply sublist_take].
  - intros i p x [Hp _]%lookup_take_Some [Hx _]%lookup_take_Some.
    assert ((p, x) ∈ entries s) as Hin.
    { rewrite <- Hperm. apply list_elem_of_lookup. exists i.
      rewrite lookup_zip_with, Hp, Hx. done. }
    unfold entries in Hin.
    apply list_elem_of_fmap in Hin as (q & [= -> ->] & Hq). done.
  - intros Hfew. rewrite Nat.min_l by done.
    rewrite take_ge by lia. done.
Qed.

Lemma X9_leaderboard_lists_players_witness :
  exists topPlayers topScores,
    getLeaderboard three_games = Ok (topPlayers, topScores) /\
    NoDup topPlayers.
Proof.
  destruct (X9_leaderboard_lists_players three_games)
    as (tp & ts & Hrun & Hnodup & _); [apply three_games_reachable|].
  exists tp, ts. split; [exact Hrun | exact Hnodup].
Defined.

Section SortedInput.
Local Open Scope nat_scope.

Lemma inner_loop_sorted n i (tp ts : list N) m :
  forall j,
    j + m = n -> i < j -> length tp = n -> length ts = n ->
    prefix_done n ts ->
    for_loop m j (sort_body i) (tp, ts) = Ok (tp, ts).
Proof.
  induction m as [|m IH]; intros j Hj Hij Htp Hts Hsorted; [done|].
  destruct (lookup_lt_is_Some_2 tp i) as [pi Hpi]; [lia|].
  destruct (lookup_lt_is_Some_2 tp j) as [pj Hpj]; [lia|].
  destruct (lookup_lt_is_Some_2 ts i) as [si Hsi]; [lia|].
  destruct (lookup_lt_is_Some_2 ts j) as [sj Hsj]; [lia|].
  cbn [for_loop]. rewrite (sort_body_result i j tp ts pi pj si sj) by done.
  assert ((si <? sj)%N = false) as ->.
  { apply N.ltb_ge. apply (Hsorted i j); auto; lia. }
  cbn [bind]. apply IH; auto; lia.
Qed.

Lemma outer_loop_sorted n (tp ts : list N) m :
  forall i,
    i + m = n -> length tp = n -> length ts = n -> prefix_done n ts ->
    for_loop m i (fun i => for_range (i + 1) n (sort_body i)) (tp, ts)
    = Ok (tp, ts).
Proof.
  induction m as [|m IH]; intros i Hi Htp Hts Hsorted; [done|].
  cbn [for_loop]. unfold for_range at 1.
  rewrite (inner_loop_sorted n i) by (auto; lia).
  cbn [bind]. apply IH; auto; lia.
Qed.

(** X10. When no registered player has a higher high score than a player
    registered earlier - an empty registry, or all scores equal, for
    instance - the sort exchanges nothing and the leaderboard is the
    first 10 players in registration order with their high scores. *)
Theorem X10_leaderboard_keeps_sorted_registry s :
  (forall a b p q, a < b ->
     players s !! a = Some p -> players s !! b = Some q ->
     (highScore_of s q <= highScore_of s p)%N) ->
  getLeaderboard s =
  Ok (take 10 (players s), take 10 (highScore_of s <$> players s)).
Proof.
  intros Hsorted. unfold getLeaderboard.
  rewrite copy_loop_result. cbn [bind].
  unfold sort_loops, for_range. rewrite Nat.sub_0_r.
  rewrite (outer_loop_sorted (length (players s))).
  - cbn [bind]. fold (for_range 0
      (if length (players s) <? 10 then length (players s) else 10)
      (top_body (players s, highScore_of s <$> players s))
      (replicate (if length (players s) <? 10
                  then length (players s) else 10) 0%N,
       replicate (if length (players s) <? 10
                  then length (players s) else 10) 0%N)).
    destruct (Nat.ltb_spec (length (players s)) 10) as [Hfew | Hmany].
    + rewrite top_loop_result by (rewrite ?length_fmap; lia).
      rewrite !take_ge by (rewrite ?length_fmap; lia). done.
    + rewrite top_loop_result by (rewrite ?length_fmap; lia). done.
  - lia.
  - done.
  - by rewrite length_fmap.
  - intros a b x y Ha Hab Hx Hy. rewrite list_lookup_fmap in Hx, Hy.
    destruct (players s !! a) as [p|] eqn:Hp; [|done].
    destruct (players s !! b) as [q|] eqn:Hq; [|done].
    simplify_eq/=. by apply (Hsorted a b).
Qed.

Lemma X10_leaderboard_keeps_sorted_registry_witness :
  getLeaderboard (run (game alice 1 ++ game bob 0 ++ game carol 0) initState)
  = Ok ([alice; bob; carol], [70; 50; 50]%N).
Proof.
  rewrite X10_leaderboard_keeps_sorted_registry; [vm_compute; reflexivity|].
  assert (players (run (game alice 1 ++ game bob 0 ++ game carol 0)
                     initState) = [alice; bob; carol]) as ->
    by (vm_compute; reflexivity).
  intros a b p q Hab Ha Hb.
  destruct a as [|[|[|a]]]; destruct b as [|[|[|b]]];
    try lia; simplify_eq/=; vm_compute; discriminate.
Defined.
End SortedInput.

(** ** Ether *)

Lemma acts_cons a al l : acts l (a :: al) = acts (act l a) al.
Proof. reflexivity. Qed.

Lemma act_balance l a :
  balance (act l a) +
  match a with
  | ActWithdraw sender accepts =>
      match withdraw sender accepts l with
      | Ok (_, (_, amount)) => amount
      | Revert _ => 0
      end
  | _ => 0
  end =
  balance l +
  ENTRY_FEE * match a with
              | ActGame tx =>
                  if is_start (call tx) && succeeds (exec tx (storage l))
                  then 1 else 0
              | _ => 0
              end +
  match a with ActCredit amount => amount | _ => 0 end.
Proof.
  destruct a as [[p c] | p accepts | amount]; simpl.
  - unfold exec; simpl. destruct c; simpl.
    + rewrite startGame_cases.
      destruct (isActive (game_of (storage l) p)); simpl; [lia|].
      destruct (N.eqb_spec value ENTRY_FEE) as [-> | _]; simpl; lia.
    + destruct (pumpBalloon p (storage l)); simpl; lia.
    + destruct (collectPoints p (storage l)); simpl; lia.
  - unfold withdraw. destruct accepts; simpl; lia.
  - lia.
Qed.

(** X11. Ether is accounted for: over any sequence of game calls,
    withdrawals and credits, what the contract holds plus what
    [withdraw] paid out equals what it held before plus one entry fee per
    game started plus what was credited.  [getContractBalance] reports
    the amount held. *)
Theorem X11_ether_is_conserved al l :
  getContractBalance (acts l al) + paid_out al l =
  getContractBalance l + ENTRY_FEE * games_paid al l + credited al.
Proof.
  unfold getContractBalance. revert l.
  induction al as [|a al IH]; intros l; [simpl; lia|].
  rewrite acts_cons. cbn [paid_out games_paid credited foldr].
  fold (credited al).
  pose proof (act_balance l a) as Hstep. specialize (IH (act l a)).
  destruct a; lia.
Qed.

(** ** The frontend mirror *)

Lemma reachable_fits_double s p : reachable s -> fits_double (game_of s p).
Proof.
  intros Hs. destruct (reachable_game_ok s p Hs) as [Hr _ Hp Hpp Ht _].
  destruct (pending_cases _ _ Hp Hpp) as [[_ Hq] | [[_ Hq] | [_ Hq]]];
    unfold fits_double, MAX_SAFE_INTEGER, MAX_ROUNDS in *;
    destruct (isActive (game_of s p)); lia.
Qed.

Lemma reachable_highScore_fits s p :
  reachable s -> highScore_of s p <= MAX_SAFE_INTEGER.
Proof.
  intros Hs. destruct (reachable_game_ok s p Hs) as [_ _ _ _ _ Hh].
  unfold MAX_SAFE_INTEGER. lia.
Qed.

(** X13. The frontend follows the contract when a call goes through: if
    its [gameState] and [highScore] are the caller's on-chain game and
    high score, the wallet request resolves and the pump, or the bank,
    returns on chain, then what the handler writes is the on-chain game
    after the call - the same points for the pump, the same round step or
    game end and the same high score for the bank.  All the numbers
    involved, the high score included, are exact as doubles. *)
Theorem X13_frontend_follows_contract s p s' :
  reachable s ->
  fits_double (game_of s p) /\
  (pumpBalloon p s = Ok s' ->
   ui_pumpBalloon true Resolved (Some (game_of s p)) = Some (game_of s' p) /\
   fits_double (game_of s' p)) /\
  (collectPoints p s = Ok s' ->
   ui_collectPoints true Resolved (Some (game_of s p))
     = Some (game_of s' p) /\
   ui_highScore true Resolved (Some (game_of s p)) (highScore_of s p)
     = highScore_of s' p /\
   fits_double (game_of s' p) /\
   highScore_of s' p <= MAX_SAFE_INTEGER) /\
  highScore_of s p <= MAX_SAFE_INTEGER.
Proof.
  intros Hs. split; [by apply reachable_fits_double|].
  split; [|split; [|by apply reachable_highScore_fits]].
  - intros Hrun. split.
    + apply pumpBalloon_Ok in Hrun as (-> & Ha & _ & _).
      rewrite game_of_pumped. unfold ui_pumpBalloon.
      destruct (game_of s p) as [r pc pp t a]; simpl in *. subst a; simpl.
      unfold with_pendingPoints, with_pumpCount; simpl.
      by rewrite N.add_sub.
    + rewrite <- (step_ok s (txPump p) s') by done.
      by apply reachable_fits_double, reachable_step.
  - intros Hrun. split; [|split; [|split]].
    + apply collectPoints_Ok in Hrun as (Ha & Hc & ->).
      unfold ui_collectPoints.
      assert ((pumpCount (game_of s p) =? 0) = false) as Hnz
        by (apply N.eqb_neq; lia).
      rewrite Ha, Hnz; simpl.
      destruct (N.ltb_spec (currentRound (game_of s p)) MAX_ROUNDS)
        as [Hr | Hr]; unfold MAX_ROUNDS in Hr.
      * assert ((5 <=? currentRound (game_of s p)) = false) as ->
          by (apply N.leb_gt; lia).
        rewrite game_of_banked_next.
        destruct (game_of s p) as [r pc pp t a]; simpl in *. by subst a.
      * assert ((5 <=? currentRound (game_of s p)) = true) as ->
          by (apply N.leb_le; lia).
        rewrite game_of_banked_last.
        by destruct (game_of s p) as [r pc pp t a].
    + apply collectPoints_Ok in Hrun as (Ha & Hc & ->).
      unfold ui_highScore.
      assert ((pumpCount (game_of s p) =? 0) = false) as Hnz
        by (apply N.eqb_neq; lia).
      rewrite Ha, Hnz; simpl.
      destruct (N.ltb_spec (currentRound (game_of s p)) MAX_ROUNDS)
        as [Hr | Hr]; unfold MAX_ROUNDS in Hr.
      * assert ((5 <=? currentRound (game_of s p)) = false) as ->
          by (apply N.leb_gt; lia).
        by rewrite highScore_of_banked_next.
      * assert ((5 <=? currentRound (game_of s p)) = true) as ->
          by (apply N.leb_le; lia).
        by rewrite highScore_of_banked_last.
    + rewrite <- (step_ok s (txBank p) s') by done.
      by apply reachable_fits_double, reachable_step.
    + rewrite <- (step_ok s (txBank p) s') by done.
      by apply reachable_highScore_fits, reachable_step.
Qed.

Lemma X13_frontend_follows_contract_witness :
  ui_collectPoints true Resolved (Some (game_of round5 alice))
  = Some (mkGameState 5 1 10 50 false).
Proof.
  destruct (X13_frontend_follows_contract round5 alice
              (banked_last alice round5)) as (_ & _ & Hbank & _).
  { by exists (txStart alice :: rounds alice 4 ++ [txPump alice]). }
  destruct Hbank as (Hgame & _); [vm_compute; reflexivity|].
  etrans; [exact Hgame|]. vm_compute; reflexivity.
Defined.

(** X14. The frontend does not hold back a third pump and takes its
    rejection for a pop: with two pumps made in a round before the
    fifth, the contract reverts the pump with PumpCapReached and keeps
    the game as it is, pending points included, while the handler - when
    the error message reads as a pop to it - writes a [gameState] one
    round further with no pumps and no pending points.  From then on the
    frontend and the contract disagree. *)
Theorem X14_frontend_drifts_on_third_pump s p :
  reachable s ->
  isActive (game_of s p) = true ->
  pumpCount (game_of s p) = 2 ->
  currentRound (game_of s p) < MAX_ROUNDS ->
  pumpBalloon p s = Revert PumpCapReached /\
  game_of (step s (txPump p)) p = game_of s p /\
  pendingPoints (game_of s p) = 30 /\
  ui_pumpBalloon true (Rejected true) (Some (game_of s p)) =
    Some (mkGameState (currentRound (game_of s p) + 1) 0 0
            (totalScore (game_of s p)) true) /\
  ui_pumpBalloon true (Rejected true) (Some (game_of s p))
    <> Some (game_of (step s (txPump p)) p).
Proof.
  intros Hs Ha Hc Hr.
  destruct (reachable_game_ok s p Hs) as [_ _ Hp Hpp _ _].
  destruct (pumpBalloon_rejected p s) as [_ Hcap].
  assert (pumpBalloon p s = Revert PumpCapReached) as Hrev.
  { rewrite Hcap by (auto; lia).
    assert ((currentRound (game_of s p) <=? MAX_ROUNDS) = true) as ->
      by (apply N.leb_le; lia). done. }
  assert (step s (txPump p) = s) as Hsame
    by (eapply step_revert; unfold exec; simpl; exact Hrev).
  assert (ui_pumpBalloon true (Rejected true) (Some (game_of s p)) =
          Some (mkGameState (currentRound (game_of s p) + 1) 0 0
                  (totalScore (game_of s p)) true)) as Hui.
  { unfold ui_pumpBalloon. rewrite Ha; simpl.
    unfold MAX_ROUNDS in Hr. apply N.ltb_lt in Hr. by rewrite Hr. }
  split; [done|]. split; [by rewrite Hsame|]. split.
  - destruct (pending_cases _ _ Hp Hpp) as [[? ?] | [[? ?] | [? ?]]];
      congruence.
  - split; [done|]. rewrite Hui, Hsame. intros [= Heq].
    rewrite <- Heq in Hc. simpl in Hc. done.
Qed.

Lemma X14_frontend_drifts_on_third_pump_witness :
  ui_pumpBalloon true (Rejected true)
    (Some (game_of (run [txStart alice; txPump alice; txPump alice]
                      initState) alice))
  = Some (mkGameState 2 0 0 0 true).
Proof.
  destruct (X14_frontend_drifts_on_third_pump
              (run [txStart alice; txPump alice; txPump alice] initState)
              alice) as (_ & _ & _ & Hui & _).
  - by exists [txStart alice; txPump alice; txPump alice].
  - vm_compute; reflexivity.
  - vm_compute; reflexivity.
  - vm_compute; reflexivity.
  - etrans; [exact Hui|]. vm_compute; reflexivity.
Defined.
